(** * mytodo: the todo controller of [script.js], embedded and verified

    The development follows the layout of [script.js]:
    - [Utils]: [generateId], [debounce], [escapeAttribute],
      [validateTodoText], [isDuplicate];
    - [StorageService]: [save], [load], [clear];
    - [NotificationService]: [show] and [remove];
    - the controller [TodoApp]: [init] with [validateElements] and
      [loadTodos], [addTodo], [deleteTodo], [startEdit], [saveEdit],
      [cancelEdit], [clearAll], [saveTodos], [updateTodoCount];
    - the page: the controller with its debounced save over [localStorage],
      and the reload when the page becomes visible again;
    - the earlier [TodoApp] of the same file.

    JavaScript strings are sequences of UTF-16 code units; they are modelled
    as [list N], so that [length] is the [.length] of the source. *)

From Stdlib Require Import ZArith NArith String Ascii.
From stdpp Require Import base tactics option list relations numbers gmap pretty
  sorting.

Open Scope N_scope.
Open Scope list_scope.

(** ** Strings *)

Abbreviation jsstring := (list N).

(** [js "abc"] is the JavaScript string with the code units of an ASCII
    literal. *)
Fixpoint js (s : string) : jsstring :=
  match s with
  | EmptyString => []
  | String c rest => N_of_ascii c :: js rest
  end.

(** The double quote, U+0022. *)
Definition dquote : N := 34.

(** [String.prototype.trim] removes leading and trailing code units that are
    ECMAScript WhiteSpace or LineTerminator. *)
Definition isWhiteSpace (c : N) : bool :=
  (c =? 9) || (c =? 10) || (c =? 11) || (c =? 12) || (c =? 13) || (c =? 32)
  || (c =? 160) || (c =? 5760)
  || ((8192 <=? c) && (c <=? 8202))
  || (c =? 8232) || (c =? 8233) || (c =? 8239) || (c =? 8287)
  || (c =? 12288) || (c =? 65279).

Fixpoint trimStart (s : jsstring) : jsstring :=
  match s with
  | [] => []
  | c :: rest => if isWhiteSpace c then trimStart rest else s
  end.

Definition trimEnd (s : jsstring) : jsstring :=
  reverse (trimStart (reverse s)).

Definition trim (s : jsstring) : jsstring := trimEnd (trimStart s).

(** A string that does not start with white space. *)
Definition no_ws_head (s : jsstring) : Prop :=
  match s with
  | [] => True
  | c :: _ => isWhiteSpace c = false
  end.

(** [s.replace(/c/g, r)] for a pattern that is one literal code unit. *)
Definition replaceAll (c : N) (r : jsstring) (s : jsstring) : jsstring :=
  flat_map (λ x, if x =? c then r else [x]) s.

(** An ASCII-only lowering, which agrees with [String.prototype.toLowerCase]
    on strings of ASCII code units; it instantiates the examples. *)
Definition ascii_toLowerCase (s : jsstring) : jsstring :=
  map (λ c, if (65 <=? c) && (c <=? 90) then c + 32 else c) s.

(** ** Completions, JSON values and the host engine *)

(** A JavaScript evaluation completes normally with a value or abruptly with
    a thrown error; [try { body } catch (error) { handler }] is [try_catch]. *)
Inductive Completion (A : Type) :=
| Normal (a : A)
| Throw (error : jsstring).
Arguments Normal {A} a.
Arguments Throw {A} error.

Global Instance Completion_ret : MRet Completion := λ A a, Normal a.
Global Instance Completion_bind : MBind Completion := λ A B k c,
  match c with
  | Normal a => k a
  | Throw e => Throw e
  end.

Definition try_catch {A} (body : Completion A)
    (handler : jsstring → Completion A) : Completion A :=
  match body with
  | Normal a => Normal a
  | Throw e => handler e
  end.

(** The values [JSON.parse] returns.  The loader only asks whether a value is
    an array; numbers are kept as integers. *)
#[warnings="-register-all"]
Inductive JValue :=
| JNull
| JBool (b : bool)
| JNumber (n : Z)
| JString (s : jsstring)
| JArray (items : list JValue)
| JObject (members : list (jsstring * JValue)).

(** [Array.isArray]. *)
Definition isArray (v : JValue) : bool :=
  match v with
  | JArray _ => true
  | _ => false
  end.

(** The built-ins of the JavaScript engine that the source calls and that are
    not part of the repository: [String.prototype.toLowerCase] and
    [JSON.parse] (which throws a [SyntaxError] on malformed text). *)
Class Engine := {
  toLowerCase : jsstring → jsstring;
  JSON_parse : jsstring → Completion JValue
}.

(** ** CONFIG *)

Module CONFIG.
Definition MAX_TODO_LENGTH : nat := 100.
End CONFIG.

(** ** Todo items *)

Module Todo.
Record t := mk {
  id : jsstring;
  text : jsstring;
  createdAt : jsstring;
  updatedAt : option jsstring;
  completed : bool
}.
End Todo.

Global Instance Todo_eq_dec : EqDecision Todo.t.
Proof. solve_decision. Defined.

(** [todo.id !== excludeId], where [excludeId] is [null] or a string. *)
Definition strict_ne (a : jsstring) (excludeId : option jsstring) : bool :=
  match excludeId with
  | None => true
  | Some e => bool_decide (a ≠ e)
  end.

(** [array.findIndex(p)]; [None] stands for [-1]. *)
Fixpoint findIndex {A} (p : A → bool) (l : list A) : option nat :=
  match l with
  | [] => None
  | x :: rest => if p x then Some 0%nat else S <$> findIndex p rest
  end.

(** ** Utils *)

Module Utils.

(** [`${Date.now()}-${Math.random().toString(36).substr(2, 9)}`]: the clock
    reading and the random digits come from the environment. *)
Definition generateId (dateNow random36 : jsstring) : jsstring :=
  dateNow ++ js "-" ++ random36.

Definition escapeAttribute (text : jsstring) : jsstring :=
  replaceAll 39 (js "&#39;")
    (replaceAll 34 (js "&quot;")
      (replaceAll 62 (js "&gt;")
        (replaceAll 60 (js "&lt;")
          (replaceAll 38 (js "&amp;") text)))).

Inductive Validation :=
| Invalid (error : jsstring)
| Valid (text : jsstring).

Definition validateTodoText (text : jsstring) : Validation :=
  let trimmed := trim text in
  match trimmed with
  | [] => Invalid (js "Todo text cannot be empty")
  | _ =>
    if Nat.ltb CONFIG.MAX_TODO_LENGTH (length trimmed)
    then Invalid (js "Todo text cannot exceed 100 characters")
    else Valid trimmed
  end.

Definition isDuplicate `{E : Engine} (text : jsstring) (todos : list Todo.t)
    (excludeId : option jsstring) : bool :=
  existsb (λ todo,
    strict_ne (Todo.id todo) excludeId
    && bool_decide (toLowerCase (Todo.text todo) = toLowerCase text)) todos.

End Utils.

(** ** StorageService.load and TodoApp.loadTodos *)

(** [item ? ... : ...] on the result of [localStorage.getItem]: [null] and the
    empty string are falsy. *)
Definition truthy_item (item : option jsstring) : option jsstring :=
  match item with
  | Some (c :: s) => Some (c :: s)
  | _ => None
  end.

Module StorageService.

(** [getItem] is the outcome of [localStorage.getItem(key)]: it may throw,
    return [null] or return the stored string. *)
Definition load `{E : Engine} (getItem : Completion (option jsstring))
    (defaultValue : JValue) : Completion JValue :=
  try_catch
    (item ← getItem;
     match truthy_item item with
     | Some text => JSON_parse text
     | None => mret defaultValue
     end)
    (λ error, mret defaultValue).

End StorageService.

(** [loadTodos] replaces [this.todos] by what [load] returns, then by [[]]
    when that is not an array; the function gives the elements of the
    resulting array. *)
Definition loadTodos `{E : Engine} (getItem : Completion (option jsstring))
    : Completion (list JValue) :=
  loaded ← StorageService.load getItem (JArray []);
  match loaded with
  | JArray items => mret items
  | _ => mret []
  end.

(** ** The controller *)

Inductive Severity := Info | Success | Warning | Error.

(** What a controller method does besides updating its fields, in the order
    of the source.  [FocusEditInput] is [editInput.focus()] on the field that
    [saveEdit] has found.  [RequestEditFocus] is the [requestAnimationFrame]
    of [startEdit]: its callback looks for the edit field of the item and
    focuses and selects it if it is there. *)
Inductive Effect :=
| Show (message : jsstring) (type : Severity)
| DebouncedSave
| StorageClear
| Render
| FocusTodoInput
| ClearTodoInput
| FocusEditInput
| RequestEditFocus.

Record TodoApp := mkApp {
  todos : list Todo.t;
  editingId : option jsstring
}.

(** The constructor: [this.todos = []; this.editingId = null]. *)
Definition initial : TodoApp := {| todos := []; editingId := None |}.

Definition has_id (id : jsstring) (todo : Todo.t) : bool :=
  bool_decide (Todo.id todo = id).

(** [addTodo]: [inputValue] is [this.elements.todoInput.value], [newId] the
    result of [Utils.generateId()] and [now] of [new Date().toISOString()]. *)
Definition addTodo `{E : Engine} (inputValue newId now : jsstring) (app : TodoApp)
    : TodoApp * list Effect :=
  match Utils.validateTodoText inputValue with
  | Utils.Invalid error => (app, [Show error Error; FocusTodoInput])
  | Utils.Valid text =>
    if Utils.isDuplicate text (todos app) None
    then (app, [Show (js "This todo already exists") Warning; FocusTodoInput])
    else
      let newTodo := {| Todo.id := newId; Todo.text := text;
                        Todo.createdAt := now; Todo.updatedAt := None;
                        Todo.completed := false |} in
      ({| todos := newTodo :: todos app; editingId := editingId app |},
       [DebouncedSave; Render; ClearTodoInput; FocusTodoInput;
        Show (js "Todo added successfully!") Success])
  end.

Definition deleteTodo (id : jsstring) (app : TodoApp) : TodoApp * list Effect :=
  match findIndex (has_id id) (todos app) with
  | None => (app, [])
  | Some todoIndex =>
    let deletedText := default [] (Todo.text <$> todos app !! todoIndex) in
    ({| todos := delete todoIndex (todos app); editingId := editingId app |},
     [DebouncedSave; Render;
      Show (dquote :: deletedText ++ dquote :: js " deleted") Info])
  end.

Definition startEdit (id : jsstring) (app : TodoApp) : TodoApp * list Effect :=
  ({| todos := todos app; editingId := Some id |}, [Render; RequestEditFocus]).

(** [todo.text = text; todo.updatedAt = now]. *)
Definition assign_text (text now : jsstring) (todo : Todo.t) : Todo.t :=
  {| Todo.id := Todo.id todo; Todo.text := text;
     Todo.createdAt := Todo.createdAt todo; Todo.updatedAt := Some now;
     Todo.completed := Todo.completed todo |}.

(** [saveEdit]: [editInput] is the value of the element found by
    [querySelector(`[data-edit-id="${id}"]`)], [None] when there is none. *)
Definition saveEdit `{E : Engine} (id : jsstring) (editInput : option jsstring)
    (now : jsstring) (app : TodoApp) : TodoApp * list Effect :=
  match editInput with
  | None => (app, [])
  | Some value =>
    match Utils.validateTodoText value with
    | Utils.Invalid error => (app, [Show error Error; FocusEditInput])
    | Utils.Valid text =>
      if Utils.isDuplicate text (todos app) (Some id)
      then (app, [Show (js "This todo already exists") Warning; FocusEditInput])
      else
        match findIndex (has_id id) (todos app) with
        | None => (app, [])
        | Some todoIndex =>
          ({| todos := alter (assign_text text now) todoIndex (todos app);
              editingId := None |},
           [DebouncedSave; Render;
            Show (js "Todo updated successfully!") Success])
        end
    end
  end.

Definition cancelEdit (app : TodoApp) : TodoApp * list Effect :=
  ({| todos := todos app; editingId := None |},
   [Render; Show (js "Edit cancelled") Info]).

(** [clearAll]: [confirmed] is the answer to the [confirm] dialogue, which is
    only asked when the list is not empty. *)
Definition clearAll (confirmed : bool) (app : TodoApp) : TodoApp * list Effect :=
  match todos app with
  | [] => (app, [Show (js "No todos to clear") Info])
  | _ =>
    if confirmed
    then ({| todos := []; editingId := None |},
          [StorageClear; Render; Show (js "All todos cleared") Success])
    else (app, [])
  end.

(** ** The edit field

    In its edit view [renderTodoItem] writes the text of the item, escaped by
    [Utils.escapeAttribute], between the double quotes of the [value]
    attribute of the field.  Only that line of the template is modelled. *)

(** The markup of the pre-filled attribute in the edit view. *)
Definition value_attribute (text : jsstring) : jsstring :=
  js "value=" ++ dquote :: Utils.escapeAttribute text ++ [dquote].

(** How an HTML tokenizer delimits a double-quoted attribute value: it runs
    up to the next double quote. *)
Fixpoint quoted_value (s : jsstring) : jsstring :=
  match s with
  | [] => []
  | c :: rest => if c =? dquote then [] else c :: quoted_value rest
  end.

(** [Utils.generateId] does not look at the list.  That the identifier it
    returns is one no item carries yet is a condition on the clock reading
    and the random digits; [method_step] states it for every [addTodo]. *)
Definition fresh_id (id : jsstring) (app : TodoApp) : Prop :=
  id ∉ Todo.id <$> todos app.

(** One call of a controller method, with any arguments, the identifier
    generated for a new item being fresh. *)
Inductive method_step `{E : Engine} : TodoApp → TodoApp → Prop :=
| call_addTodo inputValue dateNow random36 now app :
    fresh_id (Utils.generateId dateNow random36) app →
    method_step app
      (addTodo inputValue (Utils.generateId dateNow random36) now app).1
| call_deleteTodo id app :
    method_step app (deleteTodo id app).1
| call_startEdit id app :
    method_step app (startEdit id app).1
| call_saveEdit id editInput now app :
    method_step app (saveEdit id editInput now app).1
| call_cancelEdit app :
    method_step app (cancelEdit app).1
| call_clearAll confirmed app :
    method_step app (clearAll confirmed app).1.

(** The data-model invariant of a list: identifiers are pairwise distinct,
    texts are pairwise distinct up to case, and every text is what
    [validateTodoText] accepts and returns. *)
Record well_formed `{E : Engine} (l : list Todo.t) : Prop := {
  wf_ids : NoDup (Todo.id <$> l);
  wf_texts : NoDup ((λ todo, toLowerCase (Todo.text todo)) <$> l);
  wf_valid : Forall (λ todo,
    Utils.validateTodoText (Todo.text todo) = Utils.Valid (Todo.text todo)) l
}.

(** [editingId], when set, is the identifier of an item of the list. *)
Definition editing_refers (app : TodoApp) : Prop :=
  ∀ id, editingId app = Some id → ∃ todo, todo ∈ todos app ∧ Todo.id todo = id.

(** A call reports success with a [Success] notification. *)
Definition is_success (e : Effect) : bool :=
  match e with
  | Show _ Success => true
  | _ => false
  end.

Definition successful (r : TodoApp * list Effect) : bool :=
  existsb is_success r.2.

(** ** An engine for the examples *)

Definition plain_char (c : N) : bool :=
  negb (c =? dquote) && negb (c =? 92) && (32 <=? c).

(** A fragment of [JSON.parse]: [null], the empty array and string literals
    without escapes; anything else is rejected. *)
Definition sample_JSON_parse (s : jsstring) : Completion JValue :=
  if bool_decide (s = js "null") then Normal JNull
  else if bool_decide (s = js "[]") then Normal (JArray [])
  else
    match s with
    | c :: rest =>
      match reverse rest with
      | d :: ydob =>
        if (c =? dquote) && (d =? dquote) && forallb plain_char ydob
        then Normal (JString (reverse ydob))
        else Throw (js "SyntaxError")
      | [] => Throw (js "SyntaxError")
      end
    | [] => Throw (js "SyntaxError")
    end.

Definition ascii_engine : Engine :=
  {| toLowerCase := ascii_toLowerCase; JSON_parse := sample_JSON_parse |}.

(** ** Escaped text

    What the documentation of [escapeAttribute] announces ("Escapes &, <, >,
    double and single quote"), written as one pass that maps each code unit
    to its entity; [Utils.escapeAttribute] itself makes five passes. *)
Definition entity_of (c : N) : jsstring :=
  if c =? 38 then js "&amp;"
  else if c =? 60 then js "&lt;"
  else if c =? 62 then js "&gt;"
  else if c =? 34 then js "&quot;"
  else if c =? 39 then js "&#39;"
  else [c].

Definition is_special (c : N) : bool :=
  (c =? 38) || (c =? 60) || (c =? 62) || (c =? 34) || (c =? 39).

(** The characters that end a quoted attribute value or start a tag. *)
Definition delimiter_free (c : N) : Prop :=
  c ≠ 60 ∧ c ≠ 62 ∧ c ≠ 34 ∧ c ≠ 39.

(** What follows the ampersand in the five entities. *)
Definition entity_bodies : list jsstring :=
  [js "amp;"; js "lt;"; js "gt;"; js "quot;"; js "#39;"].

Fixpoint starts_with (p s : jsstring) : bool :=
  match p, s with
  | [], _ => true
  | a :: p', b :: s' => (a =? b) && starts_with p' s'
  | _ :: _, [] => false
  end.

(** A special character is raw when it is not part of an entity: the other
    four never are, and an ampersand is when none of the five entities
    starts at it.  [no_raw_special s] holds when [s] has no raw one. *)
Fixpoint no_raw_special (s : jsstring) : bool :=
  match s with
  | [] => true
  | c :: rest =>
    (if c =? 38 then existsb (λ body, starts_with body rest) entity_bodies
     else negb (is_special c))
    && no_raw_special rest
  end.

(** Reading back the value of the attribute written by [value_attribute]:
    skip the attribute name, the equals sign and the opening quote (seven
    code units) and take the quoted value. *)
Definition read_value_attribute (markup : jsstring) : jsstring :=
  quoted_value (drop 7 markup).

(** ** Sample states *)

Definition id_milk : jsstring :=
  Utils.generateId (js "1700000000000") (js "k3j9x2m1q").

Definition id_dog : jsstring :=
  Utils.generateId (js "1700000060000") (js "p0o9i8u7y").

Definition todo_milk : Todo.t :=
  Todo.mk id_milk (js "Buy milk") (js "2023-11-14T22:13:20.000Z") None false.

Definition todo_dog : Todo.t :=
  Todo.mk id_dog (js "Walk dog") (js "2023-11-14T22:14:20.000Z") None false.

Definition app_milk : TodoApp :=
  (addTodo (E:=ascii_engine) (js "Buy milk") id_milk
     (js "2023-11-14T22:13:20.000Z") initial).1.

Definition app_milk_dog : TodoApp :=
  (addTodo (E:=ascii_engine) (js "  Walk dog ") id_dog
     (js "2023-11-14T22:14:20.000Z") app_milk).1.

(** [app_milk] with its item in edit mode. *)
Definition app_editing : TodoApp := (startEdit id_milk app_milk).1.

(** [app_milk_dog] with the older item in edit mode. *)
Definition app_two_editing : TodoApp := (startEdit id_milk app_milk_dog).1.

(** * Further parts of the source *)

(** ** TodoApp.updateTodoCount

    The numbers written into the [todoCount] and [completedCount] elements
    (when the page has them). *)
Definition updateTodoCount (app : TodoApp) : nat * nat :=
  (length (todos app),
   length (filter (λ todo, Todo.completed todo = true) (todos app))).

(** What identifies an item for good: its identifier and creation time. *)
Definition item_key (todo : Todo.t) : jsstring * jsstring :=
  (Todo.id todo, Todo.createdAt todo).

(** ** TodoApp.validateElements, init and the start of the page

    [document.getElementById] is a function from identifiers to elements,
    [None] for [null]; [this.elements] is a JavaScript object used as a map
    from names to elements, an absent name standing for [null]. *)

Definition requiredElements : list jsstring :=
  [js "todoInput"; js "addTodoBtn"; js "todoList"; js "emptyState"].

(** The loop of [validateElements].  When it throws, the elements stored so
    far are dropped with the object under construction. *)
Fixpoint validate_required {Element} (getElementById : jsstring → option Element)
    (names : list jsstring) (elements : gmap jsstring Element)
    : Completion (gmap jsstring Element) :=
  match names with
  | [] => Normal elements
  | elementName :: rest =>
    match getElementById elementName with
    | None => Throw (js "Required element not found: " ++ elementName)
    | Some element =>
      validate_required getElementById rest (<[elementName := element]> elements)
    end
  end.

(** [this.elements[name] = value] where [value] may be [null]. *)
Definition assign_element {Element} (name : jsstring) (value : option Element)
    (elements : gmap jsstring Element) : gmap jsstring Element :=
  match value with
  | Some element => <[name := element]> elements
  | None => delete name elements
  end.

Definition validateElements {Element} (getElementById : jsstring → option Element)
    (elements : gmap jsstring Element) : Completion (gmap jsstring Element) :=
  elements' ← validate_required getElementById requiredElements elements;
  mret (assign_element (js "todoCount") (getElementById (js "todoCount"))
          elements').

(** What [init] leaves behind: the elements it found, the list it loaded and
    what it showed. *)
Record Started (Element : Type) := mkStarted {
  started_elements : gmap jsstring Element;
  started_todos : list JValue;
  started_effects : list Effect
}.
Arguments mkStarted {Element} _ _ _.
Arguments started_elements {Element} _.
Arguments started_todos {Element} _.
Arguments started_effects {Element} _.

(** [init]: [validateElements], [loadTodos], then [bindEvents] (which adds
    listeners to elements that are there), [render] and the greeting, which
    the notification service shows without throwing.  [render] is the
    outcome of [this.render()] on the loaded list: it reads the properties
    of every element of the array, and throws when one has none (a
    [TypeError] at [todo.id] when the element is [null]). *)
Definition init `{E : Engine} {Element}
    (getElementById : jsstring → option Element)
    (getItem : Completion (option jsstring))
    (render : list JValue → Completion unit) : Completion (Started Element) :=
  elements ← validateElements getElementById ∅;
  items ← loadTodos getItem;
  _ ← render items;
  mret (mkStarted elements items
          [Render; Show (js "Todo app loaded successfully!") Success]).

(** The [DOMContentLoaded] listener: the application, or the static error
    page that shows [error.message]. *)
Inductive Page (Element : Type) :=
| Running (started : Started Element)
| ErrorPage (message : jsstring).
Arguments Running {Element} started.
Arguments ErrorPage {Element} message.

Definition onDOMContentLoaded `{E : Engine} {Element}
    (getElementById : jsstring → option Element)
    (getItem : Completion (option jsstring))
    (render : list JValue → Completion unit) : Completion (Page Element) :=
  try_catch
    (started ← init getElementById getItem render; mret (Running started))
    (λ message, mret (ErrorPage message)).

(** A [render] for the examples: it walks the array and throws at the first
    element that is [null]. *)
Definition sample_render (items : list JValue) : Completion unit :=
  if existsb (λ item, match item with JNull => true | _ => false end) items
  then Throw (js "Cannot read properties of null (reading 'id')")
  else Normal ().

(** An engine for the examples that also parses the array holding [null]. *)
Definition sample_JSON_parse_null (s : jsstring) : Completion JValue :=
  if bool_decide (s = js "[null]") then Normal (JArray [JNull])
  else sample_JSON_parse s.

Definition null_engine : Engine :=
  {| toLowerCase := ascii_toLowerCase; JSON_parse := sample_JSON_parse_null |}.

(** A page that has the four required elements and no counter. *)
Definition sample_document (name : jsstring) : option nat :=
  if bool_decide (name = js "todoInput") then Some 1%nat
  else if bool_decide (name = js "addTodoBtn") then Some 2%nat
  else if bool_decide (name = js "todoList") then Some 3%nat
  else if bool_decide (name = js "emptyState") then Some 4%nat
  else None.

(** The same page without its list element. *)
Definition sample_document_no_list (name : jsstring) : option nat :=
  if bool_decide (name = js "todoList") then None else sample_document name.

(** ** localStorage, StorageService.save and StorageService.clear *)

(** [JSON.stringify], which throws on a value it cannot serialise. *)
Class Stringifier := {
  JSON_stringify : JValue → Completion jsstring
}.

(** The [localStorage] of the page maps keys to strings.  The browser may
    refuse any access (quota exceeded, storage disabled); [refused] is its
    decision for the call at hand. *)
Abbreviation LocalStorage := (gmap jsstring jsstring).

Definition setItem (refused : bool) (key value : jsstring)
    (store : LocalStorage) : Completion LocalStorage :=
  if refused then Throw (js "QuotaExceededError")
  else Normal (<[key := value]> store).

Definition getItem (refused : bool) (key : jsstring) (store : LocalStorage)
    : Completion (option jsstring) :=
  if refused then Throw (js "SecurityError") else Normal (store !! key).

Definition removeItem (refused : bool) (key : jsstring) (store : LocalStorage)
    : Completion LocalStorage :=
  if refused then Throw (js "SecurityError") else Normal (delete key store).

(** [StorageService.save] and [StorageService.clear] ([StorageService.load]
    is above); the result carries the store they leave. *)
Definition StorageService_save `{S : Stringifier} (refused : bool)
    (key : jsstring) (data : JValue) (store : LocalStorage)
    : Completion (bool * LocalStorage) :=
  try_catch
    (text ← JSON_stringify data;
     store' ← setItem refused key text store;
     mret (true, store'))
    (λ error, mret (false, store)).

Definition StorageService_clear (refused : bool) (key : jsstring)
    (store : LocalStorage) : Completion (bool * LocalStorage) :=
  try_catch
    (store' ← removeItem refused key store; mret (true, store'))
    (λ error, mret (false, store)).

(** [CONFIG.STORAGE_KEY] and [CONFIG.DEBOUNCE_DELAY]. *)
Definition STORAGE_KEY : jsstring := js "todos".
Definition DEBOUNCE_DELAY : nat := 300%nat.

(** The JavaScript object behind a [Todo.t]: the properties of the literal in
    [addTodo], in their order, followed by [updatedAt] once [saveEdit] has
    assigned it. *)
Definition todo_to_json (todo : Todo.t) : JValue :=
  JObject
    ([(js "id", JString (Todo.id todo));
      (js "text", JString (Todo.text todo));
      (js "createdAt", JString (Todo.createdAt todo));
      (js "completed", JBool (Todo.completed todo))]
     ++ match Todo.updatedAt todo with
        | Some updatedAt => [(js "updatedAt", JString updatedAt)]
        | None => []
        end).

Definition todos_to_json (l : list Todo.t) : JValue :=
  JArray (todo_to_json <$> l).

(** [saveTodos]: the store it leaves and the notification of a failure. *)
Definition saveTodos `{S : Stringifier} (refused : bool) (app : TodoApp)
    (store : LocalStorage) : Completion (LocalStorage * list Effect) :=
  '(success, store') ← StorageService_save refused STORAGE_KEY
                          (todos_to_json (todos app)) store;
  mret (store',
        if (success : bool) then []
        else [Show (js "Failed to save todos. Please check your browser storage.")
                Error]).

(** ** Timers and Utils.debounce

    The timers a debounced function has set: identifiers are handed out in
    increasing order and never reused; a pending timer has a due time and
    the arguments its callback will pass on. *)
Record Timers (A : Type) := mkTimers {
  pending : gmap nat (nat * A);
  nextId : nat
}.
Arguments mkTimers {A} _ _.
Arguments pending {A} _.
Arguments nextId {A} _.

Definition setTimeout {A} (now delay : nat) (args : A) (t : Timers A)
    : nat * Timers A :=
  (nextId t,
   mkTimers (<[nextId t := ((now + delay)%nat, args)]> (pending t))
     (S (nextId t))).

(** [clearTimeout(id)]; [None] is [undefined]. *)
Definition clearTimeout {A} (id : option nat) (t : Timers A) : Timers A :=
  match id with
  | Some i => mkTimers (delete i (pending t)) (nextId t)
  | None => t
  end.

(** The closure [Utils.debounce] returns: its variable [timeoutId] and the
    timers it has set. *)
Record Debounced (A : Type) := mkDebounced {
  timeoutId : option nat;
  timers : Timers A
}.
Arguments mkDebounced {A} _ _.
Arguments timeoutId {A} _.
Arguments timers {A} _.

Definition debounce {A} : Debounced A := mkDebounced None (mkTimers ∅ 0%nat).

(** A call of the debounced function at time [now]. *)
Definition debounced_call {A} (delay now : nat) (args : A) (d : Debounced A)
    : Debounced A :=
  let cleared := clearTimeout (timeoutId d) (timers d) in
  let set := setTimeout now delay args cleared in
  mkDebounced (Some set.1) set.2.

(** The browser runs timer [id] at time [now]: possible when it is pending
    and due; the result is the arguments [func] is applied to. *)
Definition timer_fires {A} (now id : nat) (d : Debounced A)
    : option (A * Debounced A) :=
  match pending (timers d) !! id with
  | Some (due, args) =>
    if decide (due ≤ now)%nat
    then Some (args,
               mkDebounced (timeoutId d)
                 (mkTimers (delete id (pending (timers d)))
                    (nextId (timers d))))
    else None
  | None => None
  end.

Inductive DebounceEvent (A : Type) :=
| Called (now : nat) (args : A)
| Fired (now id : nat).
Arguments Called {A} now args.
Arguments Fired {A} now id.

(** A history of calls and timer runs, in time order; the result lists the
    applications of [func] with their times.  [None]: the history cannot
    happen. *)
Fixpoint debounce_run {A} (delay : nat) (events : list (DebounceEvent A))
    (clock : nat) (d : Debounced A) : option (Debounced A * list (nat * A)) :=
  match events with
  | [] => Some (d, [])
  | Called now args :: rest =>
    if decide (clock ≤ now)%nat
    then debounce_run delay rest now (debounced_call delay now args d)
    else None
  | Fired now id :: rest =>
    if decide (clock ≤ now)%nat
    then
      match timer_fires now id d with
      | Some (args, d') =>
        match debounce_run delay rest now d' with
        | Some (d'', applied) => Some (d'', (now, args) :: applied)
        | None => None
        end
      | None => None
      end
    else None
  end.

(** What debouncing is meant to do, with one slot: a call overwrites the
    slot; a timer run applies [func] to the arguments in the slot, no
    earlier than [delay] after they were put there, and empties it. *)
Fixpoint last_call_wins {A} (delay : nat) (events : list (DebounceEvent A))
    (slot : option (nat * A)) : option (list (nat * A)) :=
  match events with
  | [] => Some []
  | Called now args :: rest => last_call_wins delay rest (Some (now, args))
  | Fired now _ :: rest =>
    match slot with
    | Some (called, args) =>
      if decide (called + delay ≤ now)%nat
      then cons (now, args) <$> last_call_wins delay rest None
      else None
    | None => None
    end
  end.

(** A serialiser for the examples: compact, strings without escapes. *)
Fixpoint join_comma (parts : list jsstring) : jsstring :=
  match parts with
  | [] => []
  | [part] => part
  | part :: rest => part ++ 44 :: join_comma rest
  end.

Fixpoint sample_stringify (v : JValue) : jsstring :=
  match v with
  | JNull => js "null"
  | JBool b => if b then js "true" else js "false"
  | JNumber n => js (pretty n)
  | JString s => dquote :: s ++ [dquote]
  | JArray items => 91 :: join_comma (map sample_stringify items) ++ [93]
  | JObject members =>
    123 :: join_comma
             (map (λ member, dquote :: member.1 ++ dquote :: 58
                             :: sample_stringify member.2) members)
        ++ [125]
  end.

Definition sample_stringifier : Stringifier :=
  {| JSON_stringify := λ v, Normal (sample_stringify v) |}.

(** The closure and the slot agree: nothing pending and an empty slot, or
    exactly the timer named by [timeoutId] pending, due [delay] after the
    call in the slot and carrying its arguments. *)
Definition slot_matches {A} (delay : nat) (d : Debounced A)
    (slot : option (nat * A)) : Prop :=
  match slot with
  | None => pending (timers d) = ∅
  | Some (called, args) =>
    ∃ id, timeoutId d = Some id
          ∧ pending (timers d) = {[id := ((called + delay)%nat, args)]}
  end.

(** ** The page: controller, debounced save and store

    [debouncedSave] is [Utils.debounce(this.saveTodos.bind(this),
    CONFIG.DEBOUNCE_DELAY)]; it is called without arguments, and [saveTodos]
    reads [this.todos] when the timer runs. *)
Record World := mkWorld {
  world_app : TodoApp;
  debouncedSave : Debounced unit;
  localStorage : LocalStorage;
  world_clock : nat
}.

Definition world_initial : World := mkWorld initial debounce ∅ 0%nat.

Definition is_debounced_save (e : Effect) : bool :=
  match e with
  | DebouncedSave => true
  | _ => false
  end.

Definition is_storage_clear (e : Effect) : bool :=
  match e with
  | StorageClear => true
  | _ => false
  end.

(** What an effect of a controller method does to the timers and the store;
    [refused] is the browser's answer to a storage access. *)
Definition perform (now : nat) (refused : bool) (w : World) (e : Effect)
    : World :=
  match e with
  | DebouncedSave =>
    mkWorld (world_app w)
      (debounced_call DEBOUNCE_DELAY now tt (debouncedSave w))
      (localStorage w) (world_clock w)
  | StorageClear =>
    match StorageService_clear refused STORAGE_KEY (localStorage w) with
    | Normal (_, store') =>
      mkWorld (world_app w) (debouncedSave w) store' (world_clock w)
    | Throw _ => w
    end
  | _ => w
  end.

(** Reading a parsed value back as the item it was written from. *)
Definition todo_of_json (v : JValue) : option Todo.t :=
  match v with
  | JObject [(k1, JString id); (k2, JString text); (k3, JString createdAt);
             (k4, JBool completed)] =>
    if bool_decide ([k1; k2; k3; k4]
                    = [js "id"; js "text"; js "createdAt"; js "completed"])
    then Some (Todo.mk id text createdAt None completed)
    else None
  | JObject [(k1, JString id); (k2, JString text); (k3, JString createdAt);
             (k4, JBool completed); (k5, JString updatedAt)] =>
    if bool_decide ([k1; k2; k3; k4; k5]
                    = [js "id"; js "text"; js "createdAt"; js "completed";
                       js "updatedAt"])
    then Some (Todo.mk id text createdAt (Some updatedAt) completed)
    else None
  | _ => None
  end.

Definition todos_of_json (items : list JValue) : option (list Todo.t) :=
  mapM todo_of_json items.

(** A call of a controller method with its arguments, as the listeners of
    [bindEvents] make them on a user event: [addTodo] on a submission,
    [startEdit], [deleteTodo], [saveEdit] and [cancelEdit] on clicks and keys
    in the list, [clearAll] on its button.  The identifier is any string (it
    is read from the page), [editInput] is the content of the edit field
    that [saveEdit] finds, if it finds one. *)
Inductive Call :=
| CallAddTodo (inputValue dateNow random36 now : jsstring)
| CallDeleteTodo (id : jsstring)
| CallStartEdit (id : jsstring)
| CallSaveEdit (id : jsstring) (editInput : option jsstring) (now : jsstring)
| CallCancelEdit
| CallClearAll (confirmed : bool).

Definition call `{E : Engine} (c : Call) (app : TodoApp)
    : TodoApp * list Effect :=
  match c with
  | CallAddTodo inputValue dateNow random36 now =>
    addTodo inputValue (Utils.generateId dateNow random36) now app
  | CallDeleteTodo id => deleteTodo id app
  | CallStartEdit id => startEdit id app
  | CallSaveEdit id editInput now => saveEdit id editInput now app
  | CallCancelEdit => cancelEdit app
  | CallClearAll confirmed => clearAll confirmed app
  end.

(** The calls that keep the editing reference: [startEdit] is given the
    identifier of an item of the list, and [deleteTodo] another identifier
    than [editingId]. *)
Definition keeps_reference (c : Call) (app : TodoApp) : Prop :=
  match c with
  | CallStartEdit id => id ∈ Todo.id <$> todos app
  | CallDeleteTodo id => editingId app ≠ Some id
  | _ => True
  end.

Inductive guarded_call `{E : Engine} : TodoApp → TodoApp → Prop :=
| guarded c app : keeps_reference c app → guarded_call app (call c app).1.

Inductive WorldEvent :=
| User (now : nat) (c : Call) (refused : bool)
| SaveTimer (now id : nat) (refused : bool)
| Visible (now : nat) (refused : bool).

(** One event of the page at time [now]: a user event, on which a listener
    calls a controller method, a run of a timer set by [debouncedSave], or
    the page becoming visible again ([loadTodos] and [render]).  [None]: the
    event cannot happen, or the stored array does not consist of items. *)
Definition world_step `{E : Engine} `{S : Stringifier} (wev : WorldEvent)
    (w : World) : option World :=
  match wev with
  | User now c refused =>
    if decide (world_clock w ≤ now)%nat
    then
      let r := call c (world_app w) in
      Some (foldl (perform now refused)
              (mkWorld r.1 (debouncedSave w) (localStorage w) now) r.2)
    else None
  | SaveTimer now id refused =>
    if decide (world_clock w ≤ now)%nat
    then
      match timer_fires now id (debouncedSave w) with
      | Some (_, d') =>
        match saveTodos refused (world_app w) (localStorage w) with
        | Normal (store', _) => Some (mkWorld (world_app w) d' store' now)
        | Throw _ => None
        end
      | None => None
      end
    else None
  | Visible now refused =>
    if decide (world_clock w ≤ now)%nat
    then
      match loadTodos (getItem refused STORAGE_KEY (localStorage w)) with
      | Normal items =>
        match todos_of_json items with
        | Some l =>
          Some (mkWorld {| todos := l; editingId := editingId (world_app w) |}
                  (debouncedSave w) (localStorage w) now)
        | None => None
        end
      | Throw _ => None
      end
    else None
  end.

Fixpoint world_run `{E : Engine} `{S : Stringifier}
    (events : list WorldEvent) (w : World) : option World :=
  match events with
  | [] => Some w
  | wev :: rest =>
    match world_step wev w with
    | Some w' => world_run rest w'
    | None => None
    end
  end.

(** No storage access is refused, and the page is not reloaded. *)
Definition undisturbed (wev : WorldEvent) : bool :=
  match wev with
  | User _ _ refused => negb refused
  | SaveTimer _ _ refused => negb refused
  | Visible _ _ => false
  end.

(** The store holds the serialisation of the list in memory (or nothing,
    when the list is empty). *)
Definition in_sync `{S : Stringifier} (w : World) : Prop :=
  match localStorage w !! STORAGE_KEY with
  | None => todos (world_app w) = []
  | Some text =>
    JSON_stringify (todos_to_json (todos (world_app w))) = Normal text
  end.

(** A history for the examples: an item is added at time 1000 and the save
    runs at 1300. *)
Definition sample_history : list WorldEvent :=
  [User 1000 (CallAddTodo (js "Buy milk") (js "1700000000000")
                (js "k3j9x2m1q") (js "2023-11-14T22:13:20.000Z")) false;
   SaveTimer 1300 0 false].

(** Since the page [w0], neither the list nor the store has changed. *)
Definition untouched (w0 w : World) : Prop :=
  todos (world_app w) = todos (world_app w0)
  ∧ localStorage w = localStorage w0.

(** The invariant of a page that started as [w0]: the debounced save has at
    most its latest timer pending, and when none is pending the store is in
    sync, or list and store are still those of [w0]. *)
Definition world_inv `{S : Stringifier} (w0 w : World) : Prop :=
  (∃ slot, slot_matches DEBOUNCE_DELAY (debouncedSave w) slot)
  ∧ (pending (timers (debouncedSave w)) = ∅ → in_sync w ∨ untouched w0 w).

(** A page that has just loaded over a store that holds a string instead of
    an array: [loadTodos] has put the empty list in memory. *)
Definition sample_stale : World :=
  mkWorld initial debounce
    {[STORAGE_KEY := dquote :: js "not-an-array" ++ [dquote]]} 0%nat.

(** The page of the examples after the item was added and before the save
    ran, over a store that holds an empty list. *)
Definition sample_unsaved : World :=
  mkWorld app_milk
    (mkDebounced (Some 0%nat) (mkTimers {[0%nat := (1300%nat, tt)]} 1%nat))
    {[STORAGE_KEY := js "[]"]} 1000%nat.

(** The submission of the examples, the page after it, and the page after
    a refused save. *)
Definition sample_submit : WorldEvent :=
  User 1000 (CallAddTodo (js "Buy milk") (js "1700000000000")
               (js "k3j9x2m1q") (js "2023-11-14T22:13:20.000Z")) false.



(** ** The earlier TodoApp of the same file

    The second class of [script.js]: numeric identifiers taken from
    [Date.now()], [push] instead of [unshift], [filter] instead of [splice],
    a save after every change and no limit on the length of a text. *)
Module Legacy.

Record t := mk {
  id : N;
  text : jsstring;
  createdAt : jsstring
}.

Inductive Effect :=
| ShowError (message : jsstring)
| ShowSuccess (message : jsstring)
| SaveTodos
| RenderTodos
| ClearInput
| FocusInput.

(** [addTodo]: [inputValue] is [this.todoInput.value], [dateNow] the result
    of [Date.now()] and [now] of [new Date().toISOString()]. *)
Definition addTodo `{E : Engine} (inputValue : jsstring) (dateNow : N)
    (now : jsstring) (todos : list t) : list t * list Effect :=
  let todoText := trim inputValue in
  match todoText with
  | [] => (todos, [ShowError (js "Please enter a todo item")])
  | _ =>
    if existsb (λ todo,
         bool_decide (toLowerCase (text todo) = toLowerCase todoText)) todos
    then (todos, [ShowError (js "This todo already exists")])
    else
      (todos ++ [mk dateNow todoText now],
       [SaveTodos; RenderTodos; ClearInput; FocusInput;
        ShowSuccess (js "Todo added successfully!")])
  end.

Definition deleteTodo (id' : N) (todos : list t) : list t * list Effect :=
  (filter (λ todo, id todo ≠ id') todos,
   [SaveTodos; RenderTodos; ShowSuccess (js "Todo deleted successfully!")]).

(** [loadTodos]: [getItem] is the outcome of
    [localStorage.getItem('todos')] and [todos] the value of [this.todos]
    before the call; the result is its value after.  The read is made
    outside the [try], and what [JSON.parse] returns is kept as it is. *)
Definition loadTodos `{E : Engine} (getItem : Completion (option jsstring))
    (todos : JValue) : Completion JValue :=
  savedTodos ← getItem;
  match truthy_item savedTodos with
  | Some text => try_catch (JSON_parse text) (λ error, mret (JArray []))
  | None => mret todos
  end.

(** [showNotification].  The page keeps the elements of class
    [notification] in document order (they are children of [document.body],
    appended in turn), numbered in the order they are created, and the
    timers set; the callback of a timer carries the element it was set
    for. *)
Record Page := mkPage {
  notifications : list nat;
  made : list (jsstring * jsstring);
  page_timers : Timers nat
}.

Definition page_initial : Page := mkPage [] [] (mkTimers ∅ 0%nat).

(** [document.querySelector('.notification')] is the first element in
    document order; [existingNotification.remove()] detaches it. *)
Definition showNotification (now : nat) (message type : jsstring) (p : Page)
    : Page :=
  let remaining :=
    match notifications p with
    | existingNotification :: others => others
    | [] => []
    end in
  let notification := length (made p) in
  mkPage (remaining ++ [notification]) (made p ++ [(message, type)])
    (setTimeout now 3000 notification (page_timers p)).2.

Inductive PageEvent :=
| Notified (now : nat) (message type : jsstring)
| TimerRuns (now id : nat).

(** One event; a timer only runs when it is pending and due.  Its callback
    is [if (notification.parentNode) notification.remove()]. *)
Definition page_step (ev : PageEvent) (p : Page) : option Page :=
  match ev with
  | Notified now message type => Some (showNotification now message type p)
  | TimerRuns now id =>
    match pending (page_timers p) !! id with
    | Some (due, notification) =>
      if decide (due ≤ now)%nat
      then
        let timers' := mkTimers (delete id (pending (page_timers p)))
                         (nextId (page_timers p)) in
        Some (if bool_decide (notification ∈ notifications p)
              then mkPage (filter (λ m, m ≠ notification) (notifications p))
                     (made p) timers'
              else mkPage (notifications p) (made p) timers')
      else None
    | None => None
    end
  end.

Fixpoint page_run (events : list PageEvent) (p : Page) : option Page :=
  match events with
  | [] => Some p
  | ev :: rest =>
    match page_step ev p with
    | Some p' => page_run rest p'
    | None => None
    end
  end.

(** What the page keeps true: at most one notification is attached, the one
    made last; it has a pending timer set for it; and the timer identifiers
    in use are below the next one. *)
Record page_ok (p : Page) : Prop := {
  page_ok_latest : notifications p = []
                   ∨ (∃ n, notifications p = [n] ∧ S n = length (made p));
  page_ok_timer : ∀ n, n ∈ notifications p →
                  ∃ id due, pending (page_timers p) !! id = Some (due, n);
  page_ok_ids : ∀ id timer, pending (page_timers p) !! id = Some timer →
                (id < nextId (page_timers p))%nat
}.

End Legacy.

(** ** NotificationService

    The notification elements are numbered in the order [createNotification]
    makes them.  The service keeps the children of its container, the
    classes [show] and [hiding] of the elements, and the timers it has set:
    the automatic removal after [duration] and the detaching that [remove]
    schedules after [CONFIG.ANIMATION_DURATION]. *)
Definition NOTIFICATION_DURATION : nat := 3000%nat.
Definition ANIMATION_DURATION : nat := 300%nat.

Inductive NotificationTimer :=
| AutoRemove (n : nat)
| Detach (n : nat).

Record NotificationService := mkNotificationService {
  container : list nat;
  created : list (jsstring * Severity);
  showing : gset nat;
  hiding : gset nat;
  notification_timers : Timers NotificationTimer
}.

Definition NotificationService_new : NotificationService :=
  mkNotificationService [] [] ∅ ∅ (mkTimers ∅ 0%nat).

(** [show(message, type, duration)] at time [now]; the result is the new
    element.  The class [show] is added by the next animation frame. *)
Definition NotificationService_show (now : nat) (message : jsstring)
    (type : Severity) (duration : nat) (s : NotificationService)
    : nat * NotificationService :=
  let n := length (created s) in
  (n,
   mkNotificationService (container s ++ [n]) (created s ++ [(message, type)])
     (showing s) (hiding s)
     (setTimeout now duration (AutoRemove n) (notification_timers s)).2).

(** [remove(notification)]. *)
Definition NotificationService_remove (now n : nat) (s : NotificationService)
    : NotificationService :=
  mkNotificationService (container s) (created s) (showing s)
    ({[n]} ∪ hiding s)
    (setTimeout now ANIMATION_DURATION (Detach n) (notification_timers s)).2.

(** The callback of the detaching timer: [if (notification.parentNode)
    parentNode.removeChild(notification)]. *)
Definition detach (n : nat) (s : NotificationService) : NotificationService :=
  if bool_decide (n ∈ container s)
  then mkNotificationService (filter (λ m, m ≠ n) (container s)) (created s)
         (showing s) (hiding s) (notification_timers s)
  else s.

Inductive NotificationEvent :=
| Shown (now : nat) (message : jsstring) (type : Severity) (duration : nat)
| AnimationFrame (n : nat)
| CloseClicked (now n : nat)
| TimerRuns (now id : nat).

(** One event; [None] when it cannot happen: a close button can only be
    clicked on an attached notification, a timer only runs when it is
    pending and due. *)
Definition notification_step (ev : NotificationEvent) (s : NotificationService)
    : option NotificationService :=
  match ev with
  | Shown now message type duration =>
    Some (NotificationService_show now message type duration s).2
  | AnimationFrame n =>
    Some (mkNotificationService (container s) (created s)
            ({[n]} ∪ showing s) (hiding s) (notification_timers s))
  | CloseClicked now n =>
    if bool_decide (n ∈ container s)
    then Some (NotificationService_remove now n s)
    else None
  | TimerRuns now id =>
    match pending (notification_timers s) !! id with
    | Some (due, callback) =>
      if decide (due ≤ now)%nat
      then
        let s' := mkNotificationService (container s) (created s) (showing s)
                    (hiding s)
                    (mkTimers (delete id (pending (notification_timers s)))
                       (nextId (notification_timers s))) in
        Some match callback with
             | AutoRemove n => NotificationService_remove now n s'
             | Detach n => detach n s'
             end
      else None
    | None => None
    end
  end.

Fixpoint notification_run (events : list NotificationEvent)
    (s : NotificationService) : option NotificationService :=
  match events with
  | [] => Some s
  | ev :: rest =>
    match notification_step ev s with
    | Some s' => notification_run rest s'
    | None => None
    end
  end.

(** The notification a timer is aimed at. *)
Definition timer_target (callback : NotificationTimer) : nat :=
  match callback with
  | AutoRemove n => n
  | Detach n => n
  end.

(** What the service keeps true: the container holds each element at most
    once, in the order of creation; timer identifiers in use are below the
    next one; and every attached element has a pending timer aimed at it. *)
Record notifications_ok (s : NotificationService) : Prop := {
  ok_nodup : NoDup (container s);
  ok_sorted : StronglySorted lt (container s);
  ok_created : Forall (λ n, (n < length (created s))%nat) (container s);
  ok_ids : ∀ id timer, pending (notification_timers s) !! id = Some timer →
             (id < nextId (notification_timers s))%nat;
  ok_aimed : ∀ n, n ∈ container s →
             ∃ id due callback,
               pending (notification_timers s) !! id = Some (due, callback)
               ∧ timer_target callback = n
}.

(** * Properties *)

(** Closed decidable facts are settled by evaluation. *)
Ltac decide_closed := apply (bool_decide_unpack _); vm_compute; exact I.

(** ** Lists and strings *)

Section ListFacts.
Context {A : Type}.
Implicit Types (p : A → bool) (l : list A).

Lemma findIndex_Some p l i :
  findIndex p l = Some i →
  ∃ before x after,
    l = before ++ x :: after ∧ length before = i ∧ p x = true
    ∧ Forall (λ y, p y = false) before.
Proof.
  revert i. induction l as [|a l IH]; intros i; simpl; [done|].
  destruct (p a) eqn:Hpa.
  - intros [= <-]. by exists [], a, l.
  - destruct (findIndex p l) as [j|] eqn:Hj; simpl; [|done].
    intros [= <-].
    destruct (IH j eq_refl) as (before & x & after & -> & <- & Hpx & Hall).
    exists (a :: before), x, after. split_and!; try done. by constructor.
Qed.

Lemma findIndex_first p before x after :
  Forall (λ y, p y = false) before → p x = true →
  findIndex p (before ++ x :: after) = Some (length before).
Proof.
  intros Hall Hpx. induction Hall as [|y before Hy _ IH]; simpl.
  - by rewrite Hpx.
  - by rewrite Hy, IH.
Qed.

Lemma alter_middle (f : A → A) before x after :
  alter f (length before) (before ++ x :: after) = before ++ f x :: after.
Proof.
  rewrite <- (Nat.add_0_r (length before)). by rewrite alter_app_r.
Qed.

Lemma findIndex_None p l :
  findIndex p l = None ↔ Forall (λ y, p y = false) l.
Proof.
  induction l as [|a l IH]; simpl.
  - split; [constructor|done].
  - destruct (p a) eqn:Hpa.
    + split; [done|]. inversion 1; congruence.
    + rewrite fmap_None, IH. split.
      * by constructor.
      * by inversion 1.
Qed.

Lemma findIndex_is_Some p l x :
  x ∈ l → p x = true → is_Some (findIndex p l).
Proof.
  intros Hin Hp. destruct (findIndex p l) eqn:Hf; [by eexists|].
  apply findIndex_None in Hf. rewrite list.Forall_forall in Hf.
  specialize (Hf x Hin). congruence.
Qed.

Lemma existsb_false_Forall p l :
  existsb p l = false ↔ Forall (λ y, p y = false) l.
Proof.
  induction l as [|a l IH]; simpl.
  - split; [constructor|done].
  - rewrite orb_false_iff, IH. split.
    + intros [??]. by constructor.
    + by inversion 1.
Qed.

Lemma existsb_true_elem p l :
  existsb p l = true ↔ ∃ x, x ∈ l ∧ p x = true.
Proof.
  rewrite existsb_exists. split; intros (x & H1 & H2); exists x;
    (split; [by apply list_elem_of_In|done]).
Qed.

End ListFacts.

(** [trim] is idempotent: what it returns neither starts nor ends with white
    space. *)

Lemma trimStart_no_ws_head s : no_ws_head (trimStart s).
Proof.
  induction s as [|c s IH]; simpl; [done|].
  destruct (isWhiteSpace c) eqn:Hc; [done|]. by simpl.
Qed.

Lemma trimStart_fixed s : no_ws_head s → trimStart s = s.
Proof. destruct s as [|c s]; simpl; [done|]. by intros ->. Qed.

Lemma trimStart_snoc s c :
  isWhiteSpace c = false → ∃ s', trimStart (s ++ [c]) = s' ++ [c].
Proof.
  intros Hc. induction s as [|d s IH]; simpl.
  - rewrite Hc. by exists [].
  - destruct (isWhiteSpace d); [done|]. by exists (d :: s).
Qed.

Lemma trimEnd_no_ws_head s : no_ws_head s → no_ws_head (trimEnd s).
Proof.
  destruct s as [|c s]; [done|]. simpl. intros Hc. unfold trimEnd.
  rewrite reverse_cons.
  destruct (trimStart_snoc (reverse s) c Hc) as [s' ->].
  by rewrite reverse_snoc.
Qed.

Lemma trimEnd_fixed s : no_ws_head (reverse s) → trimEnd s = s.
Proof.
  intros H. unfold trimEnd. rewrite trimStart_fixed by done.
  apply reverse_involutive.
Qed.

Lemma trim_idemp s : trim (trim s) = trim s.
Proof.
  unfold trim at 1.
  rewrite (trimStart_fixed (trim s)).
  - apply trimEnd_fixed. unfold trim, trimEnd.
    rewrite reverse_involutive. apply trimStart_no_ws_head.
  - apply trimEnd_no_ws_head, trimStart_no_ws_head.
Qed.

(** ** Utils.validateTodoText and Utils.isDuplicate *)

Lemma validateTodoText_Valid value text :
  Utils.validateTodoText value = Utils.Valid text ↔
  text = trim value ∧ (1 ≤ length (trim value) ≤ CONFIG.MAX_TODO_LENGTH)%nat.
Proof.
  unfold Utils.validateTodoText.
  destruct (trim value) as [|c s] eqn:Ht.
  - split; [done|]. simpl. lia.
  - destruct (Nat.ltb_spec CONFIG.MAX_TODO_LENGTH (length (c :: s))).
    + split; [done|]. lia.
    + split.
      * intros [= <-]. split; [done|]. simpl in *. lia.
      * by intros [-> _].
Qed.

Lemma validateTodoText_Invalid value :
  trim value = [] ∨ (CONFIG.MAX_TODO_LENGTH < length (trim value))%nat →
  ∃ error, Utils.validateTodoText value = Utils.Invalid error.
Proof.
  unfold Utils.validateTodoText. intros [H|H].
  - rewrite H. by eexists.
  - destruct (trim value) as [|c s]; [by eexists|].
    apply Nat.ltb_lt in H. rewrite H. by eexists.
Qed.

Lemma validateTodoText_accepts_result value text :
  Utils.validateTodoText value = Utils.Valid text →
  Utils.validateTodoText text = Utils.Valid text.
Proof.
  rewrite !validateTodoText_Valid. intros [-> ?].
  by rewrite !trim_idemp.
Qed.

Section Duplicates.
Context `{E : Engine}.

Lemma isDuplicate_true text l excludeId :
  Utils.isDuplicate text l excludeId = true ↔
  ∃ todo, todo ∈ l ∧ strict_ne (Todo.id todo) excludeId = true
          ∧ toLowerCase (Todo.text todo) = toLowerCase text.
Proof.
  unfold Utils.isDuplicate. rewrite existsb_true_elem.
  split; intros (todo & Hin & H); exists todo; split; try done.
  - apply andb_true_iff in H as [? ?%bool_decide_eq_true]. done.
  - destruct H as [-> H]. simpl. by apply bool_decide_eq_true.
Qed.

Lemma isDuplicate_false text l excludeId :
  Utils.isDuplicate text l excludeId = false ↔
  ∀ todo, todo ∈ l → strict_ne (Todo.id todo) excludeId = true →
          toLowerCase (Todo.text todo) ≠ toLowerCase text.
Proof.
  rewrite <- not_true_iff_false, isDuplicate_true. split.
  - intros H todo ? ? ?. apply H. by exists todo.
  - intros H (todo & ? & ? & ?). by eapply H.
Qed.

Lemma strict_ne_None id : strict_ne id None = true.
Proof. done. Qed.

Lemma strict_ne_Some id e : strict_ne id (Some e) = true ↔ id ≠ e.
Proof. simpl. by rewrite bool_decide_eq_true. Qed.

End Duplicates.

(** ** TodoApp.addTodo *)

Section AddTodo.
Context `{E : Engine}.

Lemma addTodo_accepted inputValue newId now app :
  (1 ≤ length (trim inputValue) ≤ CONFIG.MAX_TODO_LENGTH)%nat →
  (∀ todo, todo ∈ todos app →
     toLowerCase (Todo.text todo) ≠ toLowerCase (trim inputValue)) →
  addTodo inputValue newId now app =
    ({| todos := Todo.mk newId (trim inputValue) now None false :: todos app;
        editingId := editingId app |},
     [DebouncedSave; Render; ClearTodoInput; FocusTodoInput;
      Show (js "Todo added successfully!") Success]).
Proof.
  intros Hlen Hnew. unfold addTodo.
  assert (Utils.validateTodoText inputValue = Utils.Valid (trim inputValue))
    as -> by by apply validateTodoText_Valid.
  assert (Utils.isDuplicate (trim inputValue) (todos app) None = false) as ->.
  { apply isDuplicate_false. auto. }
  done.
Qed.

Lemma addTodo_rejected inputValue newId now app :
  trim inputValue = []
  ∨ (CONFIG.MAX_TODO_LENGTH < length (trim inputValue))%nat
  ∨ (∃ todo, todo ∈ todos app
       ∧ toLowerCase (Todo.text todo) = toLowerCase (trim inputValue)) →
  ∃ message type,
    type ≠ Success ∧
    addTodo inputValue newId now app =
      (app, [Show message type; FocusTodoInput]).
Proof.
  intros H. unfold addTodo.
  destruct (Utils.validateTodoText inputValue) as [error|text] eqn:Hv.
  { by exists error, Error. }
  apply validateTodoText_Valid in Hv as [-> Hlen].
  destruct H as [H|[H|(todo & Hin & Heq)]].
  - rewrite H in Hlen. simpl in Hlen. lia.
  - lia.
  - assert (Utils.isDuplicate (trim inputValue) (todos app) None = true) as ->.
    { apply isDuplicate_true. by exists todo. }
    by exists (js "This todo already exists"), Warning.
Qed.

(** A call of [addTodo] either leaves the state as it is or puts one new
    item in front of the list. *)
Lemma addTodo_cases inputValue newId now app :
  let r := addTodo inputValue newId now app in
  (successful r = false ∧ r.1 = app)
  ∨ (successful r = true
     ∧ Utils.validateTodoText inputValue = Utils.Valid (trim inputValue)
     ∧ Utils.isDuplicate (trim inputValue) (todos app) None = false
     ∧ r.1 = {| todos := Todo.mk newId (trim inputValue) now None false
                          :: todos app;
                editingId := editingId app |}).
Proof.
  unfold addTodo; simpl.
  destruct (Utils.validateTodoText inputValue) as [error|text] eqn:Hv.
  { by left. }
  pose proof Hv as [-> _]%validateTodoText_Valid.
  destruct (Utils.isDuplicate _ _ _) eqn:Hd; [by left | by right].
Qed.

(** C3: an input whose trimmed text has 1 to 100 code units and equals no
    existing text up to case makes [addTodo] lengthen the list by exactly
    one; the new item is put in front of the old list, carries the trimmed
    text and is not completed. *)
Theorem addTodo_valid_prepends inputValue newId now app :
  (1 ≤ length (trim inputValue) ≤ 100)%nat →
  (∀ todo, todo ∈ todos app →
     toLowerCase (Todo.text todo) ≠ toLowerCase (trim inputValue)) →
  let app' := (addTodo inputValue newId now app).1 in
  length (todos app') = S (length (todos app))
  ∧ ∃ newTodo, todos app' = newTodo :: todos app
      ∧ Todo.text newTodo = trim inputValue
      ∧ Todo.completed newTodo = false.
Proof.
  intros Hlen Hnew. simpl.
  rewrite addTodo_accepted by done. simpl. split; [done|]. by eexists.
Qed.

(** C4: an input that is empty or blank after trimming, longer than 100 code
    units after trimming, or equal up to case to an existing text, leaves
    the list (and the whole state) as it was. *)
Theorem addTodo_invalid_unchanged inputValue newId now app :
  trim inputValue = []
  ∨ (100 < length (trim inputValue))%nat
  ∨ (∃ todo, todo ∈ todos app
       ∧ toLowerCase (Todo.text todo) = toLowerCase (trim inputValue)) →
  todos (addTodo inputValue newId now app).1 = todos app
  ∧ (addTodo inputValue newId now app).1 = app
  ∧ successful (addTodo inputValue newId now app) = false.
Proof.
  intros H.
  destruct (addTodo_rejected inputValue newId now app H)
    as (message & type & Hty & ->).
  simpl. split_and!; try done. unfold successful; simpl.
  by destruct type.
Qed.

End AddTodo.

(** ** TodoApp.deleteTodo *)

Lemma has_id_true id todo : has_id id todo = true ↔ Todo.id todo = id.
Proof. apply bool_decide_eq_true. Qed.

Lemma has_id_false id todo : has_id id todo = false ↔ Todo.id todo ≠ id.
Proof. apply bool_decide_eq_false. Qed.

Lemma findIndex_has_id_None id (l : list Todo.t) :
  findIndex (has_id id) l = None ↔ id ∉ Todo.id <$> l.
Proof.
  rewrite findIndex_None, list.Forall_forall, list_elem_of_fmap. split.
  - intros H (todo & -> & Hin). specialize (H todo Hin).
    by apply has_id_false in H.
  - intros H todo Hin. apply has_id_false. intros <-. apply H. by exists todo.
Qed.

Lemma deleteTodo_absent id app :
  id ∉ Todo.id <$> todos app → deleteTodo id app = (app, []).
Proof.
  intros H%findIndex_has_id_None. unfold deleteTodo. by rewrite H.
Qed.

Lemma deleteTodo_present id app :
  id ∈ Todo.id <$> todos app →
  ∃ before target after,
    todos app = before ++ target :: after
    ∧ Todo.id target = id
    ∧ (id ∉ Todo.id <$> before)
    ∧ (deleteTodo id app).1 =
        {| todos := before ++ after; editingId := editingId app |}.
Proof.
  intros Hin. unfold deleteTodo.
  destruct (findIndex (has_id id) (todos app)) as [i|] eqn:Hf.
  - destruct (findIndex_Some _ _ _ Hf)
      as (before & target & after & Hl & <- & Ht%has_id_true & Hall).
    exists before, target, after. split_and!; try done.
    + apply findIndex_has_id_None, findIndex_None, Hall.
    + simpl. by rewrite Hl, delete_middle.
  - by apply findIndex_has_id_None in Hf.
Qed.

Lemma deleteTodo_editingId id app :
  editingId (deleteTodo id app).1 = editingId app.
Proof.
  unfold deleteTodo. by destruct (findIndex (has_id id) (todos app)).
Qed.

(** C5, as stated, on a list in which two items carry the same identifier:
    [deleteTodo] removes the first of them only, so an item with that
    identifier remains. *)
Lemma deleteTodo_shared_id_remains :
  let app := {| todos := [Todo.mk (js "1") (js "a") (js "t0") None false;
                          Todo.mk (js "1") (js "b") (js "t1") None false];
                editingId := None |} in
  js "1" ∈ (Todo.id <$> todos app)
  ∧ todos (deleteTodo (js "1") app).1 =
      [Todo.mk (js "1") (js "b") (js "t1") None false]
  ∧ js "1" ∈ (Todo.id <$> todos (deleteTodo (js "1") app).1).
Proof.
  simpl. split_and!; [|done|]; decide_closed.
Qed.

(** C5 (amended): [deleteTodo] with an identifier that no item carries
    leaves the list as it is; with an identifier that is present the list
    gets shorter by exactly one; and when the identifiers of the list are
    pairwise distinct, no remaining item carries the deleted one. *)
Theorem deleteTodo_absent_present id app :
  (id ∉ (Todo.id <$> todos app) →
     todos (deleteTodo id app).1 = todos app)
  ∧ (id ∈ (Todo.id <$> todos app) →
     S (length (todos (deleteTodo id app).1)) = length (todos app))
  ∧ (id ∈ (Todo.id <$> todos app) → NoDup (Todo.id <$> todos app) →
     id ∉ (Todo.id <$> todos (deleteTodo id app).1)).
Proof.
  split_and!.
  - intros H. by rewrite deleteTodo_absent.
  - intros (before & target & after & Hl & _ & _ & ->)%deleteTodo_present.
    simpl. rewrite Hl, !length_app. simpl. lia.
  - intros (before & target & after & Hl & Ht & Hb & ->)%deleteTodo_present.
    simpl. rewrite Hl, !fmap_app, fmap_cons, Ht.
    intros (_ & Hdisj & (Hafter & _)%list.NoDup_cons)%list.NoDup_app.
    rewrite elem_of_app. intros [?|?]; [done|]. by apply Hafter.
Qed.

Lemma deleteTodo_absent_present_witness :
  let app := {| todos := [Todo.mk (js "2") (js "b") (js "t1") None false;
                          Todo.mk (js "1") (js "a") (js "t0") None false];
                editingId := None |} in
  todos (deleteTodo (js "3") app).1 = todos app
  ∧ S (length (todos (deleteTodo (js "1") app).1)) = length (todos app)
  ∧ js "1" ∉ (Todo.id <$> todos (deleteTodo (js "1") app).1).
Proof.
  intros app.
  destruct (deleteTodo_absent_present (js "3") app) as (H1 & _ & _).
  destruct (deleteTodo_absent_present (js "1") app) as (_ & H2 & H3).
  split_and!.
  - apply H1. decide_closed.
  - apply H2. decide_closed.
  - apply H3; decide_closed.
Defined.

(** ** TodoApp.saveEdit *)

Section SaveEdit.
Context `{E : Engine}.

(** A call of [saveEdit] either leaves the state as it is, or rewrites the
    first item carrying [id] and leaves edit mode. *)
Lemma saveEdit_cases id editInput now app :
  let r := saveEdit id editInput now app in
  (successful r = false ∧ r.1 = app)
  ∨ (successful r = true
     ∧ ∃ value before target after,
         editInput = Some value
         ∧ Utils.validateTodoText value = Utils.Valid (trim value)
         ∧ Utils.isDuplicate (trim value) (todos app) (Some id) = false
         ∧ todos app = before ++ target :: after
         ∧ Todo.id target = id
         ∧ (id ∉ Todo.id <$> before)
         ∧ r.1 = {| todos := before
                      ++ assign_text (trim value) now target :: after;
                    editingId := None |}).
Proof.
  unfold saveEdit; simpl.
  destruct editInput as [value|]; [|by left].
  destruct (Utils.validateTodoText value) as [error|text] eqn:Hv; [by left|].
  pose proof Hv as [-> _]%validateTodoText_Valid.
  destruct (Utils.isDuplicate _ _ _) eqn:Hd; [by left|].
  destruct (findIndex (has_id id) (todos app)) as [i|] eqn:Hf; [|by left].
  destruct (findIndex_Some _ _ _ Hf)
    as (before & target & after & Hl & <- & Ht%has_id_true & Hall).
  right. split; [done|]. exists value, before, target, after.
  split_and!; try done.
  - apply findIndex_has_id_None, findIndex_None, Hall.
  - simpl. by rewrite Hl, alter_middle.
Qed.



Lemma NoDup_fmap_lookup {A B} (f : A → B) (l : list A) i j x y :
  NoDup (f <$> l) → l !! i = Some x → l !! j = Some y → f x = f y → i = j.
Proof.
  intros Hnd Hi Hj Hf.
  apply (NoDup_lookup (f <$> l) i j (f x)); [done|..];
    rewrite list_lookup_fmap.
  - by rewrite Hi.
  - rewrite Hj. simpl. by rewrite Hf.
Qed.


Lemma well_formed_not_duplicate l i todo :
  well_formed l → l !! i = Some todo →
  Utils.isDuplicate (Todo.text todo) l (Some (Todo.id todo)) = false.
Proof.
  intros [_ Htexts _] Hi. apply isDuplicate_false.
  intros other [j Hj]%list_elem_of_lookup Hne%strict_ne_Some Heq.
  apply Hne. f_equal.
  assert (j = i) as ->; [|congruence].
  by apply (NoDup_fmap_lookup _ l _ _ other todo Htexts).
Qed.




End SaveEdit.


(** ** The data-model invariant along controller calls *)

Lemma NoDup_fmap_replace_middle {A B} (f : A → B) before x y after :
  NoDup (f <$> before ++ x :: after) →
  (f y ∉ f <$> before) → (f y ∉ f <$> after) →
  NoDup (f <$> before ++ y :: after).
Proof.
  rewrite !fmap_app, !fmap_cons, !list.NoDup_app, !list.NoDup_cons.
  intros (Hb & Hdisj & _ & Ha) Hyb Hya. split_and!; try done.
  intros z Hz [->|Hin]%elem_of_cons; [done|].
  apply (Hdisj z Hz). by right.
Qed.

Lemma clearAll_cases confirmed app :
  (clearAll confirmed app).1 = app
  ∨ (todos app ≠ [] ∧ confirmed = true
     ∧ (clearAll confirmed app).1 = initial).
Proof.
  unfold clearAll. destruct (todos app) eqn:Hl; [by left|].
  destruct confirmed; [by right | by left].
Qed.

Section Invariant.
Context `{E : Engine}.

Lemma well_formed_nil : well_formed [].
Proof. split; simpl; constructor. Qed.

Lemma addTodo_well_formed inputValue newId now app :
  fresh_id newId app → well_formed (todos app) →
  well_formed (todos (addTodo inputValue newId now app).1).
Proof.
  intros Hfresh Hwf.
  destruct (addTodo_cases inputValue newId now app)
    as [[_ ->]|(_ & Hv & Hd & ->)]; [done|].
  destruct Hwf as [Hids Htexts Hvalid]. split; simpl.
  - apply list.NoDup_cons. by split.
  - apply list.NoDup_cons. split; [|done].
    intros (todo & Heq & Hin)%list_elem_of_fmap.
    rewrite isDuplicate_false in Hd. by apply (Hd todo).
  - constructor; [|done]. simpl.
    by apply (validateTodoText_accepts_result inputValue).
Qed.

Lemma deleteTodo_well_formed id app :
  well_formed (todos app) → well_formed (todos (deleteTodo id app).1).
Proof.
  intros [Hids Htexts Hvalid]. unfold deleteTodo.
  destruct (findIndex (has_id id) (todos app)) as [i|]; [|done].
  simpl. split.
  - rewrite list_fmap_delete.
    exact (sublist_NoDup _ _ Hids (sublist_delete _ _)).
  - rewrite list_fmap_delete.
    exact (sublist_NoDup _ _ Htexts (sublist_delete _ _)).
  - rewrite list.Forall_forall in *. intros todo Hin.
    by eapply Hvalid, list_elem_of_delete_inv.
Qed.

Lemma saveEdit_well_formed id editInput now app :
  well_formed (todos app) →
  well_formed (todos (saveEdit id editInput now app).1).
Proof.
  intros Hwf.
  destruct (saveEdit_cases id editInput now app)
    as [[_ ->]|(_ & value & before & target & after
                & -> & Hv & Hd & Hl & Ht & Hb & ->)]; [done|].
  destruct Hwf as [Hids Htexts Hvalid]. rewrite Hl in *. simpl.
  assert (∀ todo, todo ∈ before ++ after → Todo.id todo ≠ id) as Hother.
  { intros todo Hin Hid. rewrite fmap_app in Hids.
    change (Todo.id <$> target :: after)
      with (Todo.id target :: (Todo.id <$> after)) in Hids.
    rewrite Ht in Hids.
    apply list.NoDup_app in Hids as (_ & Hdisj & (Hafter & _)%list.NoDup_cons).
    apply elem_of_app in Hin as [Hin|Hin].
    - apply Hb. rewrite <- Hid. by apply list_elem_of_fmap_2.
    - apply Hafter. rewrite <- Hid. by apply list_elem_of_fmap_2. }
  assert (∀ todo, todo ∈ before ++ after →
            toLowerCase (Todo.text todo) ≠ toLowerCase (trim value)) as Hnew.
  { intros todo Hin. rewrite isDuplicate_false in Hd. apply Hd.
    - rewrite elem_of_app in *. rewrite elem_of_cons. tauto.
    - apply strict_ne_Some. by apply Hother. }
  split.
  - rewrite fmap_app in Hids |- *. exact Hids.
  - apply (NoDup_fmap_replace_middle _ before target); [done|..];
      intros (todo & Heq & Hin)%list_elem_of_fmap;
      apply (Hnew todo); try done; rewrite elem_of_app; auto.
  - apply Forall_app in Hvalid as [Hvb Hva]. inversion_clear Hva.
    apply Forall_app. split; [done|]. constructor; [|done]. simpl.
    by apply (validateTodoText_accepts_result value).
Qed.

Lemma method_step_well_formed app app' :
  method_step app app' → well_formed (todos app) → well_formed (todos app').
Proof.
  intros Hstep Hwf. destruct Hstep as
    [inputValue dateNow random36 now app Hfresh | id app | id app
    | id editInput now app | app | confirmed app].
  - by apply addTodo_well_formed.
  - by apply deleteTodo_well_formed.
  - done.
  - by apply saveEdit_well_formed.
  - done.
  - destruct (clearAll_cases confirmed app) as [->|(_ & _ & ->)]; [done|].
    apply well_formed_nil.
Qed.

Lemma reachable_well_formed app :
  rtc method_step initial app → well_formed (todos app).
Proof.
  revert app. apply (rtc_ind_r (λ a, well_formed (todos a))).
  - apply well_formed_nil.
  - intros mid app _ Hstep IH. by eapply method_step_well_formed.
Qed.

(** C1 (amended): in every state reached from the empty list by calls of
    the controller methods (with any arguments), as long as every identifier
    that [Utils.generateId] returns is one no item of the list carries yet,
    no two items of the list have texts that are equal when compared without
    case. *)
Theorem reachable_texts_distinct app i j x y :
  rtc method_step initial app →
  todos app !! i = Some x → todos app !! j = Some y → i ≠ j →
  toLowerCase (Todo.text x) ≠ toLowerCase (Todo.text y).
Proof.
  intros [_ Htexts _]%reachable_well_formed Hi Hj Hne Heq. apply Hne.
  by apply (NoDup_fmap_lookup _ (todos app) i j x y Htexts).
Qed.

End Invariant.

(** C1, as stated: [Utils.generateId] does not look at the list.  When it
    returns for a second item the identifier of the first (the same clock
    reading and the same random digits), [saveEdit] on that identifier
    leaves both items out of its duplicate check and rewrites the first of
    them: after adding "a" and "b" and saving "a", both items have the text
    "a". *)
Lemma colliding_identifier_equal_texts :
  let id := Utils.generateId (js "1700000000000") (js "k3j9x2m1q") in
  let app1 := (addTodo (E:=ascii_engine) (js "a") id (js "t1") initial).1 in
  let app2 := (addTodo (E:=ascii_engine) (js "b") id (js "t2") app1).1 in
  let app3 := (saveEdit (E:=ascii_engine) id (Some (js "a")) (js "t3")
                 app2).1 in
  Todo.text <$> todos app2 = [js "b"; js "a"]
  ∧ Todo.id <$> todos app2 = [id; id]
  ∧ successful (saveEdit (E:=ascii_engine) id (Some (js "a")) (js "t3") app2)
    = true
  ∧ Todo.text <$> todos app3 = [js "a"; js "a"].
Proof. by vm_compute. Qed.

(** ** The editing reference *)

Section Editing.
Context `{E : Engine}.

Lemma saveEdit_editing_refers id editInput now app :
  editing_refers app → editing_refers (saveEdit id editInput now app).1.
Proof.
  intros Href.
  destruct (saveEdit_cases id editInput now app)
    as [[_ ->]|(_ & value & before & target & after & _ & _ & _ & _ & _ & _
                & ->)]; [done|].
  by intros id'.
Qed.

Lemma saveEdit_success_clears id editInput now app :
  successful (saveEdit id editInput now app) = true →
  editingId (saveEdit id editInput now app).1 = None.
Proof.
  destruct (saveEdit_cases id editInput now app)
    as [[Hs _]|(_ & value & before & target & after & _ & _ & _ & _ & _ & _
                & ->)]; [|done].
  simpl in Hs. congruence.
Qed.

Lemma deleteTodo_other_editing_refers id app :
  editingId app ≠ Some id →
  editing_refers app → editing_refers (deleteTodo id app).1.
Proof.
  intros Hne Href id'. rewrite deleteTodo_editingId. intros Hed.
  destruct (Href id' Hed) as (todo & Hin & Hid).
  destruct (decide (id ∈ Todo.id <$> todos app)) as [Hpresent|Habsent].
  - destruct (deleteTodo_present id app Hpresent)
      as (before & target & after & Hl & Ht & _ & ->).
    simpl. exists todo. split; [|done].
    rewrite Hl in Hin. rewrite elem_of_app, elem_of_cons in Hin.
    rewrite elem_of_app. destruct Hin as [?|[->|?]]; auto.
    congruence.
  - rewrite deleteTodo_absent by done. by exists todo.
Qed.

Lemma addTodo_editing_refers inputValue newId now app :
  editing_refers app → editing_refers (addTodo inputValue newId now app).1.
Proof.
  intros Href.
  destruct (addTodo_cases inputValue newId now app)
    as [[_ ->]|(_ & _ & _ & ->)]; [done|].
  intros id Hed. destruct (Href id Hed) as (todo & Hin & Hid).
  exists todo. split; [|done]. simpl. by right.
Qed.

Lemma clearAll_editing_refers confirmed app :
  editing_refers app → editing_refers (clearAll confirmed app).1.
Proof.
  intros Href.
  destruct (clearAll_cases confirmed app) as [->|(_ & _ & ->)]; [done|].
  by intros id.
Qed.

Lemma startEdit_editing_refers id app :
  editing_refers (startEdit id app).1 ↔ id ∈ Todo.id <$> todos app.
Proof.
  split.
  - intros Href. destruct (Href id eq_refl) as (todo & Hin & <-).
    by apply list_elem_of_fmap_2.
  - intros (todo & -> & Hin)%list_elem_of_fmap id' [= <-]. by exists todo.
Qed.

Lemma guarded_call_editing_refers app app' :
  guarded_call app app' → editing_refers app → editing_refers app'.
Proof.
  intros [c app0 Hkeep] Href. destruct c; cbn [call keeps_reference] in *.
  - by apply addTodo_editing_refers.
  - by apply deleteTodo_other_editing_refers.
  - by apply startEdit_editing_refers.
  - by apply saveEdit_editing_refers.
  - by intros id.
  - by apply clearAll_editing_refers.
Qed.

End Editing.

Section EditingReference.
Context `{E : Engine} `{S : Stringifier}.

(** C2 (amended): [editingId] is cleared by a successful [saveEdit], by
    [cancelEdit] and by a confirmed [clearAll] of a list that is not empty.
    It is not cleared by a deletion: [deleteTodo] never assigns it.  Neither
    does the reload by [loadTodos] when the page becomes visible again, and
    [startEdit] sets it to the identifier it is given, whether or not an
    item carries it.  So when [editingId] is unset or is the identifier of
    an item of the list, this is still so after [addTodo], [saveEdit],
    [cancelEdit] and [clearAll]; after [deleteTodo] when it is called with
    another identifier than [editingId]; and after [startEdit] exactly when
    it is called with the identifier of an item of the list.  Hence in
    every state reached by controller calls in which [startEdit] is given
    the identifier of an item and [deleteTodo] another identifier than
    [editingId], from the initial state or any state in which the reference
    holds, [editingId], when set, is the identifier of an item of the
    list. *)
Theorem editingId_reference_kept :
  (∀ app id editInput now,
     successful (saveEdit id editInput now app) = true →
     editingId (saveEdit id editInput now app).1 = None)
  ∧ (∀ app, editingId (cancelEdit app).1 = None)
  ∧ (∀ app, todos app ≠ [] → editingId (clearAll true app).1 = None)
  ∧ (∀ app id, editingId (deleteTodo id app).1 = editingId app)
  ∧ (∀ w now refused w',
       world_step (Visible now refused) w = Some w' →
       editingId (world_app w') = editingId (world_app w))
  ∧ (∀ app id, editingId (startEdit id app).1 = Some id)
  ∧ (∀ app,
       editing_refers app →
       (∀ inputValue newId now,
          editing_refers (addTodo inputValue newId now app).1)
       ∧ (∀ id editInput now,
            editing_refers (saveEdit id editInput now app).1)
       ∧ editing_refers (cancelEdit app).1
       ∧ (∀ confirmed, editing_refers (clearAll confirmed app).1)
       ∧ (∀ id, editingId app ≠ Some id →
            editing_refers (deleteTodo id app).1))
  ∧ (∀ app id,
       editing_refers (startEdit id app).1 ↔ id ∈ Todo.id <$> todos app)
  ∧ (∀ start app,
       editing_refers start → rtc guarded_call start app →
       editing_refers app)
  ∧ (∀ app, rtc guarded_call initial app → editing_refers app).
Proof.
  assert (∀ start app,
            editing_refers start → rtc guarded_call start app →
            editing_refers app) as Hreach.
  { intros start app Hstart. revert app.
    apply (rtc_ind_r (λ a, editing_refers a)); [done|].
    intros mid app _ Hcall IH. by eapply guarded_call_editing_refers. }
  split_and!.
  - intros app id editInput now. apply saveEdit_success_clears.
  - done.
  - intros app Hne.
    by destruct (clearAll_cases true app) as [Heq|(_ & _ & ->)];
      [unfold clearAll in *; destruct (todos app)|].
  - intros app id. apply deleteTodo_editingId.
  - intros w now refused w'. unfold world_step.
    destruct (decide (world_clock w ≤ now)%nat); [|done].
    destruct (loadTodos _) as [items|]; [|done].
    destruct (todos_of_json items); [|done]. by intros [= <-].
  - done.
  - intros app Href. split_and!.
    + intros inputValue newId now. by apply addTodo_editing_refers.
    + intros id editInput now. by apply saveEdit_editing_refers.
    + by intros id.
    + intros confirmed. by apply clearAll_editing_refers.
    + intros id Hne. by apply deleteTodo_other_editing_refers.
  - intros app id. apply startEdit_editing_refers.
  - done.
  - intros app. by apply Hreach.
Qed.

End EditingReference.

(** C2, as stated: [editingId] is left naming no item by [deleteTodo] of the
    item being edited, which removes the item and does not clear it; by
    [startEdit] with an identifier that no item carries; and by a reload
    while the save of the item being edited is still pending, which brings
    back the stored list without the item. *)
Lemma editingId_left_dangling :
  let deleted := (deleteTodo id_milk app_editing).1 in
  let started := (startEdit (js "no-such-id") app_milk).1 in
  (editing_refers app_editing
   ∧ todos deleted = []
   ∧ editingId deleted = Some id_milk
   ∧ ¬ editing_refers deleted)
  ∧ (editing_refers app_milk
     ∧ todos started = [todo_milk]
     ∧ editingId started = Some (js "no-such-id")
     ∧ ¬ editing_refers started)
  ∧ (∃ w,
       world_run (E:=ascii_engine) (S:=sample_stringifier)
         [sample_submit; User 1100 (CallStartEdit id_milk) false;
          Visible 1200 false] world_initial = Some w
       ∧ todos (world_app w) = []
       ∧ editingId (world_app w) = Some id_milk
       ∧ ¬ editing_refers (world_app w)).
Proof.
  intros deleted started. split_and!.
  - intros id [= <-]. exists todo_milk. split; [decide_closed|done].
  - done.
  - done.
  - intros Href. destruct (Href id_milk eq_refl) as (todo & Hin & _).
    by apply elem_of_nil in Hin.
  - by intros id.
  - done.
  - done.
  - intros Href. destruct (Href _ eq_refl) as (todo & Hin & Hid).
    apply list_elem_of_singleton in Hin as ->. by vm_compute in Hid.
  - eexists. split; [by vm_compute|]. split_and!; [done|done|].
    intros Href. destruct (Href id_milk eq_refl) as (todo & Hin & _).
    by apply elem_of_nil in Hin.
Qed.

(** ** Frame conditions *)

Section Frame.
Context `{E : Engine}.

(** C10: a successful [addTodo] gives the new item followed by the old list;
    [deleteTodo] removes the first item carrying the identifier and leaves
    the items before and after it as they were, in their order; a successful
    [saveEdit] replaces one item by a copy that differs in [text] and
    [updatedAt] only, and leaves the others, the length and the order
    alone. *)
Theorem mutations_frame :
  (∀ inputValue newId now app,
     successful (addTodo inputValue newId now app) = true →
     ∃ newTodo,
       todos (addTodo inputValue newId now app).1 = newTodo :: todos app)
  ∧ (∀ id app,
       (id ∉ Todo.id <$> todos app) →
       todos (deleteTodo id app).1 = todos app)
  ∧ (∀ id app,
       (id ∈ Todo.id <$> todos app) →
       ∃ before target after,
         todos app = before ++ target :: after
         ∧ Todo.id target = id
         ∧ (id ∉ Todo.id <$> before)
         ∧ todos (deleteTodo id app).1 = before ++ after)
  ∧ (∀ id editInput now app,
       successful (saveEdit id editInput now app) = true →
       ∃ before target target' after,
         todos app = before ++ target :: after
         ∧ todos (saveEdit id editInput now app).1
           = before ++ target' :: after
         ∧ length (todos (saveEdit id editInput now app).1)
           = length (todos app)
         ∧ Todo.id target = id
         ∧ Todo.id target' = Todo.id target
         ∧ Todo.createdAt target' = Todo.createdAt target
         ∧ Todo.completed target' = Todo.completed target
         ∧ Some (Todo.text target') = trim <$> editInput
         ∧ Todo.updatedAt target' = Some now).
Proof.
  split_and!.
  - intros inputValue newId now app Hs.
    destruct (addTodo_cases inputValue newId now app)
      as [[Hf _]|(_ & _ & _ & ->)]; [simpl in Hf; congruence|].
    by eexists.
  - intros id app H. by rewrite deleteTodo_absent.
  - intros id app H.
    destruct (deleteTodo_present id app H)
      as (before & target & after & Hl & Ht & Hb & ->).
    by exists before, target, after.
  - intros id editInput now app Hs.
    destruct (saveEdit_cases id editInput now app)
      as [[Hf _]|(_ & value & before & target & after
                  & -> & _ & _ & Hl & Ht & _ & ->)];
      [simpl in Hf; congruence|].
    exists before, target, (assign_text (trim value) now target), after.
    simpl. split_and!; try done.
    rewrite Hl, !length_app. done.
Qed.

End Frame.

(** ** StorageService.load and TodoApp.loadTodos *)

Section Load.
Context `{E : Engine}.

Lemma load_returns getItem defaultValue :
  ∃ v, StorageService.load getItem defaultValue = Normal v
    ∧ (v = defaultValue
       ∨ ∃ c s, getItem = Normal (Some (c :: s))
                ∧ JSON_parse (c :: s) = Normal v).
Proof.
  unfold StorageService.load.
  destruct getItem as [[[|c s]|]|error]; simpl; eauto.
  destruct (JSON_parse (c :: s)) as [v|error] eqn:Hp; simpl; eauto 10.
Qed.

Lemma loadTodos_returns getItem : ∃ items, loadTodos getItem = Normal items.
Proof.
  unfold loadTodos.
  destruct (load_returns getItem (JArray [])) as (v & -> & _). simpl.
  destruct v; by eexists.
Qed.

Lemma loadTodos_array item items :
  item ≠ [] → JSON_parse item = Normal (JArray items) →
  loadTodos (Normal (Some item)) = Normal items.
Proof.
  intros Hne Hp. destruct item as [|c s]; [done|].
  unfold loadTodos, StorageService.load. simpl. by rewrite Hp.
Qed.

(** C8: [loadTodos] never throws; and when the stored value is missing,
    cannot be parsed as JSON, or parses to something that is not an array,
    the list it yields is empty.  The same holds when reading the store
    itself throws. *)
Theorem loadTodos_malformed_gives_empty :
  (∀ getItem, ∃ items, loadTodos getItem = Normal items)
  ∧ loadTodos (Normal None) = Normal []
  ∧ (∀ item error, JSON_parse item = Throw error →
       loadTodos (Normal (Some item)) = Normal [])
  ∧ (∀ item v, JSON_parse item = Normal v → isArray v = false →
       loadTodos (Normal (Some item)) = Normal [])
  ∧ (∀ error, loadTodos (Throw error) = Normal []).
Proof.
  split_and!.
  - apply loadTodos_returns.
  - done.
  - intros [|c s] error Hp; [done|].
    unfold loadTodos, StorageService.load. simpl. by rewrite Hp.
  - intros [|c s] v Hp Hv; [done|].
    unfold loadTodos, StorageService.load. simpl. rewrite Hp. simpl.
    by destruct v.
  - done.
Qed.

End Load.

(** ** Utils.escapeAttribute *)

Lemma replaceAll_app c r s t :
  replaceAll c r (s ++ t) = replaceAll c r s ++ replaceAll c r t.
Proof. unfold replaceAll. apply flat_map_app. Qed.

Lemma escapeAttribute_app s t :
  Utils.escapeAttribute (s ++ t)
  = Utils.escapeAttribute s ++ Utils.escapeAttribute t.
Proof. unfold Utils.escapeAttribute. by rewrite !replaceAll_app. Qed.

Lemma escapeAttribute_singleton c : Utils.escapeAttribute [c] = entity_of c.
Proof.
  unfold entity_of.
  destruct (N.eqb_spec c 38) as [->|H38]; [done|].
  destruct (N.eqb_spec c 60) as [->|H60]; [done|].
  destruct (N.eqb_spec c 62) as [->|H62]; [done|].
  destruct (N.eqb_spec c 34) as [->|H34]; [done|].
  destruct (N.eqb_spec c 39) as [->|H39]; [done|].
  unfold Utils.escapeAttribute, replaceAll. simpl.
  apply N.eqb_neq in H38, H60, H62, H34, H39.
  rewrite H38. simpl. rewrite H60. simpl. rewrite H62. simpl.
  rewrite H34. simpl. by rewrite H39.
Qed.

Lemma escapeAttribute_cons c s :
  Utils.escapeAttribute (c :: s) = entity_of c ++ Utils.escapeAttribute s.
Proof.
  change (c :: s) with ([c] ++ s).
  by rewrite escapeAttribute_app, escapeAttribute_singleton.
Qed.

Lemma escapeAttribute_flat_map s :
  Utils.escapeAttribute s = flat_map entity_of s.
Proof.
  induction s as [|c s IH]; [done|].
  rewrite escapeAttribute_cons, IH. done.
Qed.

Lemma entity_of_delimiter_free c : Forall delimiter_free (entity_of c).
Proof.
  unfold entity_of.
  destruct (N.eqb_spec c 38); [by repeat constructor|].
  destruct (N.eqb_spec c 60); [by repeat constructor|].
  destruct (N.eqb_spec c 62); [by repeat constructor|].
  destruct (N.eqb_spec c 34); [by repeat constructor|].
  destruct (N.eqb_spec c 39); [by repeat constructor|].
  by repeat constructor.
Qed.

Lemma escapeAttribute_delimiter_free s :
  Forall delimiter_free (Utils.escapeAttribute s).
Proof.
  induction s as [|c s IH]; [constructor|].
  rewrite escapeAttribute_cons. apply Forall_app. split; [|done].
  apply entity_of_delimiter_free.
Qed.

Lemma no_raw_special_entity c t :
  no_raw_special t = true → no_raw_special (entity_of c ++ t) = true.
Proof.
  intros Ht. unfold entity_of.
  destruct (N.eqb_spec c 38) as [->|H38];
    [simpl; by rewrite ?N.eqb_refl, Ht|].
  destruct (N.eqb_spec c 60) as [->|H60];
    [simpl; by rewrite ?N.eqb_refl, Ht|].
  destruct (N.eqb_spec c 62) as [->|H62];
    [simpl; by rewrite ?N.eqb_refl, Ht|].
  destruct (N.eqb_spec c 34) as [->|H34];
    [simpl; by rewrite ?N.eqb_refl, Ht|].
  destruct (N.eqb_spec c 39) as [->|H39];
    [simpl; by rewrite ?N.eqb_refl, Ht|].
  apply N.eqb_neq in H38, H60, H62, H34, H39.
  simpl. unfold is_special. by rewrite H38, H60, H62, H34, H39, Ht.
Qed.

Lemma escapeAttribute_no_raw_special s :
  no_raw_special (Utils.escapeAttribute s) = true.
Proof.
  induction s as [|c s IH]; [done|].
  rewrite escapeAttribute_cons. by apply no_raw_special_entity.
Qed.

Lemma quoted_value_stops s rest :
  Forall delimiter_free s → quoted_value (s ++ dquote :: rest) = s.
Proof.
  induction 1 as [|c s (_ & _ & Hc & _) _ IH]; simpl; [done|].
  apply N.eqb_neq in Hc. unfold dquote in *. by rewrite Hc, IH.
Qed.

(** C9: [escapeAttribute] replaces every occurrence of the five special
    characters by its entity and changes nothing else.  Its result has no
    raw special character: [<], [>] and both quotes do not occur in it at
    all, and every ampersand in it begins one of the five entities.  Hence
    the value of the edit field's attribute, read up to the closing double
    quote, is the whole escaped text whatever follows it; for the text
    made of a double quote followed by [><img src=x>] it is
    [&quot;&gt;&lt;img src=x&gt;]. *)
Theorem escapeAttribute_no_raw_characters :
  (∀ text, Utils.escapeAttribute text = flat_map entity_of text)
  ∧ (∀ text, Forall delimiter_free (Utils.escapeAttribute text))
  ∧ (∀ text, no_raw_special (Utils.escapeAttribute text) = true)
  ∧ (∀ text rest,
       read_value_attribute (value_attribute text ++ rest)
       = Utils.escapeAttribute text)
  ∧ read_value_attribute
      (value_attribute (dquote :: js "><img src=x>") ++ js " data-edit-id=")
    = js "&quot;&gt;&lt;img src=x&gt;".
Proof.
  split_and!.
  - apply escapeAttribute_flat_map.
  - apply escapeAttribute_delimiter_free.
  - apply escapeAttribute_no_raw_special.
  - intros text rest. unfold read_value_attribute, value_attribute. simpl.
    rewrite <- app_assoc. simpl.
    apply quoted_value_stops, escapeAttribute_delimiter_free.
  - reflexivity.
Qed.

(** ** The sample states are reachable *)

Lemma app_milk_todos : todos app_milk = [todo_milk].
Proof. reflexivity. Qed.

Lemma app_milk_dog_todos : todos app_milk_dog = [todo_dog; todo_milk].
Proof. reflexivity. Qed.

Lemma app_milk_dog_reachable :
  rtc (method_step (E:=ascii_engine)) initial app_milk_dog.
Proof.
  eapply rtc_l.
  { apply (call_addTodo (js "Buy milk") (js "1700000000000")
             (js "k3j9x2m1q") (js "2023-11-14T22:13:20.000Z") initial).
    unfold fresh_id. decide_closed. }
  eapply rtc_l; [|apply rtc_refl].
  apply (call_addTodo (js "  Walk dog ") (js "1700000060000")
           (js "p0o9i8u7y") (js "2023-11-14T22:14:20.000Z")).
  unfold fresh_id. decide_closed.
Qed.

Lemma app_milk_dog_well_formed :
  well_formed (E:=ascii_engine) (todos app_milk_dog).
Proof. apply reachable_well_formed, app_milk_dog_reachable. Qed.

(** The scenario of the specification: add "Buy milk"; adding "buy milk" is
    rejected; the item is edited to "Buy bread"; it is deleted. *)
Example scenario_buy_milk :
  let rejected := addTodo (E:=ascii_engine) (js "buy milk") id_dog (js "t1")
                    app_milk in
  let edited := saveEdit (E:=ascii_engine) id_milk (Some (js "Buy bread"))
                  (js "t2") (startEdit id_milk app_milk).1 in
  let deleted := deleteTodo id_milk edited.1 in
  Todo.text <$> todos app_milk = [js "Buy milk"]
  ∧ rejected = (app_milk, [Show (js "This todo already exists") Warning;
                           FocusTodoInput])
  ∧ Todo.text <$> todos edited.1 = [js "Buy bread"]
  ∧ editingId edited.1 = None
  ∧ todos deleted.1 = [].
Proof. by vm_compute. Qed.

(** ** Instances of the theorems on the sample states *)

Lemma reachable_texts_distinct_witness :
  rtc (method_step (E:=ascii_engine)) initial app_milk_dog
  ∧ ascii_toLowerCase (js "Walk dog") ≠ ascii_toLowerCase (js "Buy milk").
Proof.
  split; [apply app_milk_dog_reachable|].
  apply (reachable_texts_distinct (E:=ascii_engine) app_milk_dog 0 1
           todo_dog todo_milk);
    [apply app_milk_dog_reachable|reflexivity|reflexivity|lia].
Defined.

Lemma addTodo_valid_prepends_witness :
  length (todos app_milk_dog) = S (length (todos app_milk))
  ∧ ∃ newTodo, todos app_milk_dog = newTodo :: todos app_milk
      ∧ Todo.text newTodo = trim (js "  Walk dog ")
      ∧ Todo.completed newTodo = false.
Proof.
  apply (addTodo_valid_prepends (E:=ascii_engine) (js "  Walk dog ") id_dog
           (js "2023-11-14T22:14:20.000Z") app_milk).
  - vm_compute. lia.
  - intros todo Hin. rewrite app_milk_todos in Hin.
    apply list_elem_of_singleton in Hin as ->. vm_compute. discriminate.
Defined.

Lemma addTodo_invalid_unchanged_witness :
  (addTodo (E:=ascii_engine) (js "   ") id_dog (js "t") app_milk).1
    = app_milk
  ∧ (addTodo (E:=ascii_engine) (replicate 101 97) id_dog (js "t")
       app_milk).1 = app_milk
  ∧ (addTodo (E:=ascii_engine) (js " buy MILK") id_dog (js "t") app_milk).1
    = app_milk.
Proof.
  split_and!.
  - apply (addTodo_invalid_unchanged (E:=ascii_engine)). left. reflexivity.
  - apply (addTodo_invalid_unchanged (E:=ascii_engine)). right. left.
    vm_compute. lia.
  - apply (addTodo_invalid_unchanged (E:=ascii_engine)). right. right.
    exists todo_milk. split; [|reflexivity].
    rewrite app_milk_todos. apply list_elem_of_singleton. reflexivity.
Defined.



Lemma loadTodos_malformed_gives_empty_witness :
  loadTodos (E:=ascii_engine)
    (Normal (Some (dquote :: js "not-an-array" ++ [dquote]))) = Normal []
  ∧ loadTodos (E:=ascii_engine) (Normal (Some (js "not-an-array")))
    = Normal [].
Proof.
  destruct (loadTodos_malformed_gives_empty (E:=ascii_engine))
    as (_ & _ & Hthrow & Hvalue & _).
  split.
  - apply (Hvalue _ (JString (js "not-an-array"))); reflexivity.
  - apply (Hthrow _ (js "SyntaxError")). reflexivity.
Defined.

Lemma editingId_reference_kept_witness :
  editingId (saveEdit (E:=ascii_engine) id_milk (Some (js "Buy bread"))
               (js "t") app_editing).1 = None
  ∧ editingId (clearAll true app_editing).1 = None
  ∧ editing_refers (deleteTodo id_dog app_two_editing).1
  ∧ editing_refers (startEdit id_dog app_milk_dog).1
  ∧ editing_refers app_two_editing.
Proof.
  destruct (editingId_reference_kept (E:=ascii_engine)
              (S:=sample_stringifier))
    as (Hsave & _ & Hclear & _ & _ & _ & Hkept & Hstart & _ & Hreach).
  split_and!; [| | | |apply Hreach].
  - apply Hsave. reflexivity.
  - apply Hclear. discriminate.
  - apply (Hkept app_two_editing).
    + intros id [= <-]. exists todo_milk. split; [decide_closed|reflexivity].
    + vm_compute. discriminate.
  - apply Hstart. decide_closed.
  - eapply rtc_l.
    { apply (guarded (CallAddTodo (js "Buy milk") (js "1700000000000")
                        (js "k3j9x2m1q") (js "2023-11-14T22:13:20.000Z"))
               initial). exact I. }
    eapply rtc_l.
    { apply (guarded (CallAddTodo (js "  Walk dog ") (js "1700000060000")
                        (js "p0o9i8u7y") (js "2023-11-14T22:14:20.000Z"))).
      exact I. }
    eapply rtc_l; [|apply rtc_refl].
    apply (guarded (CallStartEdit id_milk)). cbn [keeps_reference].
    decide_closed.
Defined.

Lemma mutations_frame_witness :
  (∃ newTodo, todos app_milk_dog = newTodo :: todos app_milk)
  ∧ todos (deleteTodo (js "none") app_milk_dog).1 = todos app_milk_dog
  ∧ (∃ before target after,
       todos app_milk_dog = before ++ target :: after
       ∧ Todo.id target = id_milk
       ∧ (id_milk ∉ Todo.id <$> before)
       ∧ todos (deleteTodo id_milk app_milk_dog).1 = before ++ after)
  ∧ length (todos (saveEdit (E:=ascii_engine) id_milk
                     (Some (js " Buy bread")) (js "t") app_two_editing).1)
    = 2%nat.
Proof.
  destruct (mutations_frame (E:=ascii_engine))
    as (Hadd & Habsent & Hpresent & Hsave).
  split_and!.
  - apply (Hadd (js "  Walk dog ") id_dog (js "2023-11-14T22:14:20.000Z")
             app_milk). reflexivity.
  - apply Habsent. decide_closed.
  - apply Hpresent. decide_closed.
  - destruct (Hsave id_milk (Some (js " Buy bread")) (js "t")
                app_two_editing eq_refl)
      as (before & target & target' & after & _ & _ & Hlen & _).
    exact Hlen.
Defined.

Lemma escapeAttribute_no_raw_characters_witness :
  no_raw_special (Utils.escapeAttribute (js "Tom & Jerry <3")) = true
  ∧ Utils.escapeAttribute (js "Tom & Jerry <3") = js "Tom &amp; Jerry &lt;3".
Proof.
  destruct escapeAttribute_no_raw_characters as (_ & _ & Hraw & _).
  split; [apply Hraw|reflexivity].
Defined.

(** * Further properties of the source *)

(** ** Utils.escapeAttribute: nothing is lost, nothing is escaped twice *)

(** The six images of [entity_of] form a prefix code: the entities differ in
    their second code unit, and an unescaped code unit is not an ampersand. *)
Lemma entity_of_prefix_code c d s t :
  entity_of c ++ s = entity_of d ++ t → c = d ∧ s = t.
Proof.
  unfold entity_of.
  destruct (N.eqb_spec c 38) as [->|?]; [|
  destruct (N.eqb_spec c 60) as [->|?]; [|
  destruct (N.eqb_spec c 62) as [->|?]; [|
  destruct (N.eqb_spec c 34) as [->|?]; [|
  destruct (N.eqb_spec c 39) as [->|?]]]]];
  (destruct (N.eqb_spec d 38) as [->|?]; [|
   destruct (N.eqb_spec d 60) as [->|?]; [|
   destruct (N.eqb_spec d 62) as [->|?]; [|
   destruct (N.eqb_spec d 34) as [->|?]; [|
   destruct (N.eqb_spec d 39) as [->|?]]]]]);
  simpl; intros H; by simplify_eq.
Qed.

Lemma entity_of_not_nil c : entity_of c ≠ [].
Proof.
  unfold entity_of. by repeat (case N.eqb_spec; intros; try done).
Qed.

(** X1: [escapeAttribute] is injective: two texts with the same escaped form
    are the same text, so the attribute determines the text of the item. *)
Theorem escapeAttribute_injective s t :
  Utils.escapeAttribute s = Utils.escapeAttribute t → s = t.
Proof.
  revert t. induction s as [|c s IH]; intros [|d t];
    rewrite ?escapeAttribute_cons; simpl.
  - done.
  - intros H. symmetry in H. apply app_eq_nil in H as [H _].
    by apply entity_of_not_nil in H.
  - intros H. apply app_eq_nil in H as [H _].
    by apply entity_of_not_nil in H.
  - intros [-> H]%entity_of_prefix_code. f_equal. by apply IH.
Qed.

Lemma escapeAttribute_injective_witness :
  js "a<" ++ js "b" = js "a" ++ js "<b".
Proof.
  apply escapeAttribute_injective. reflexivity.
Defined.

Lemma entity_of_plain c : is_special c = false → entity_of c = [c].
Proof.
  unfold is_special, entity_of. intros H.
  repeat (apply orb_false_iff in H as [H ?]). by repeat case_match.
Qed.

Lemma entity_of_special c :
  is_special c = true →
  (1 < length (entity_of c))%nat ∧ 38 ∈ entity_of c.
Proof.
  unfold is_special, entity_of. intros H.
  repeat case N.eqb_spec; intros; simplify_eq; simpl;
    try (split; [lia|decide_closed]).
  exfalso. repeat (apply orb_true_iff in H as [H|H]);
    apply N.eqb_eq in H; congruence.
Qed.

Lemma entity_of_length c : (1 ≤ length (entity_of c) ≤ 6)%nat.
Proof.
  unfold entity_of. repeat case N.eqb_spec; intros; simpl; lia.
Qed.

Lemma escapeAttribute_length s :
  (length s ≤ length (Utils.escapeAttribute s) ≤ 6 * length s)%nat.
Proof.
  induction s as [|c s IH]; [simpl; lia|].
  rewrite escapeAttribute_cons, length_app. simpl.
  pose proof (entity_of_length c). lia.
Qed.

Lemma escapeAttribute_plain s :
  Forall (λ c, is_special c = false) s → Utils.escapeAttribute s = s.
Proof.
  induction 1 as [|c s Hc _ IH]; [done|].
  by rewrite escapeAttribute_cons, entity_of_plain, IH.
Qed.

Lemma escapeAttribute_special s :
  Exists (λ c, is_special c = true) s →
  (length s < length (Utils.escapeAttribute s))%nat
  ∧ 38 ∈ Utils.escapeAttribute s.
Proof.
  induction 1 as [c s Hc|c s _ [IHlen IHin]];
    rewrite escapeAttribute_cons, length_app, elem_of_app; simpl.
  - destruct (entity_of_special c Hc) as [Hlen Hin].
    pose proof (escapeAttribute_length s). split; [lia|by left].
  - pose proof (entity_of_length c). split; [lia|by right].
Qed.

Lemma special_or_plain s :
  Forall (λ c, is_special c = false) s ∨ Exists (λ c, is_special c = true) s.
Proof.
  induction s as [|c s [IH|IH]].
  - left. constructor.
  - destruct (is_special c) eqn:Hc.
    + right. by constructor.
    + left. by constructor.
  - right. by constructor.
Qed.

(** X2: [escapeAttribute] never shortens a text and at most multiplies its
    length by six; it returns the text unchanged exactly when the text has
    none of the five special characters; and escaping an escaped text again
    changes it unless there was nothing to escape (the ampersands of the
    entities are escaped once more). *)
Theorem escapeAttribute_fixed_points s :
  (length s ≤ length (Utils.escapeAttribute s) ≤ 6 * length s)%nat
  ∧ (Utils.escapeAttribute s = s ↔ Forall (λ c, is_special c = false) s)
  ∧ (Utils.escapeAttribute (Utils.escapeAttribute s) = Utils.escapeAttribute s
     ↔ Forall (λ c, is_special c = false) s).
Proof.
  split; [|split].
  - apply escapeAttribute_length.
  - split; [|apply escapeAttribute_plain].
    intros Heq. destruct (special_or_plain s) as [?|[Hlen _]%escapeAttribute_special];
      [done|]. rewrite Heq in Hlen. lia.
  - split.
    + intros Heq. destruct (special_or_plain s) as [?|[_ Hin]%escapeAttribute_special];
        [done|].
      assert (Exists (λ c, is_special c = true) (Utils.escapeAttribute s))
        as [Hlen _]%escapeAttribute_special.
      { apply list.Exists_exists. by exists 38. }
      rewrite Heq in Hlen. lia.
    + intros Hs. rewrite (escapeAttribute_plain s Hs).
      by apply escapeAttribute_plain.
Qed.

Lemma escapeAttribute_fixed_points_witness :
  Utils.escapeAttribute (js "Buy milk") = js "Buy milk"
  ∧ Utils.escapeAttribute (Utils.escapeAttribute (js "Buy milk"))
    = Utils.escapeAttribute (js "Buy milk").
Proof.
  destruct (escapeAttribute_fixed_points (js "Buy milk"))
    as (_ & [_ H1] & [_ H2]).
  split; [apply H1|apply H2]; decide_closed.
Defined.

(** ** Utils.validateTodoText: white space around the text *)

Lemma trimStart_ws_l ws s :
  Forall (λ c, isWhiteSpace c = true) ws → trimStart (ws ++ s) = trimStart s.
Proof. induction 1 as [|c ws Hc _ IH]; simpl; [done|]. by rewrite Hc. Qed.

Lemma trimStart_all_ws ws :
  Forall (λ c, isWhiteSpace c = true) ws → trimStart ws = [].
Proof.
  intros H. rewrite <- (app_nil_r ws). by rewrite trimStart_ws_l.
Qed.

Lemma trimStart_nil_inv s :
  trimStart s = [] → Forall (λ c, isWhiteSpace c = true) s.
Proof.
  induction s as [|c s IH]; simpl; [constructor|].
  destruct (isWhiteSpace c) eqn:Hc; [|done]. intros H. by constructor; auto.
Qed.

Lemma trimStart_app_r s t :
  trimStart s ≠ [] → trimStart (s ++ t) = trimStart s ++ t.
Proof.
  induction s as [|c s IH]; simpl; [done|].
  destruct (isWhiteSpace c); [done|]. by intros _.
Qed.

Lemma trimEnd_ws_r s ws :
  Forall (λ c, isWhiteSpace c = true) ws → trimEnd (s ++ ws) = trimEnd s.
Proof.
  intros H. unfold trimEnd. rewrite reverse_app, trimStart_ws_l; [done|].
  by apply Forall_reverse.
Qed.

Lemma trim_ws_r s ws :
  Forall (λ c, isWhiteSpace c = true) ws → trim (s ++ ws) = trim s.
Proof.
  intros H. unfold trim. destruct (trimStart s) as [|c r] eqn:Hs.
  - rewrite trimStart_all_ws; [done|].
    apply Forall_app. split; [by apply trimStart_nil_inv|done].
  - rewrite trimStart_app_r by by rewrite Hs.
    rewrite Hs. by apply trimEnd_ws_r.
Qed.

Lemma trim_ws_around ws1 s ws2 :
  Forall (λ c, isWhiteSpace c = true) ws1 →
  Forall (λ c, isWhiteSpace c = true) ws2 →
  trim (ws1 ++ s ++ ws2) = trim s.
Proof.
  intros H1 H2. rewrite app_assoc, trim_ws_r by done.
  unfold trim. by rewrite trimStart_ws_l.
Qed.

(** X3: [validateTodoText] does not see white space around the text: an
    input padded on either side with any white-space code units (spaces,
    tabs, line breaks, no-break spaces, ...) gets the same verdict, with the
    same text, as the input without the padding; and an input made of white
    space only is rejected as empty. *)
Theorem validateTodoText_ignores_padding ws1 s ws2 :
  Forall (λ c, isWhiteSpace c = true) ws1 →
  Forall (λ c, isWhiteSpace c = true) ws2 →
  Utils.validateTodoText (ws1 ++ s ++ ws2) = Utils.validateTodoText s
  ∧ Utils.validateTodoText (ws1 ++ ws2)
    = Utils.Invalid (js "Todo text cannot be empty").
Proof.
  intros H1 H2. unfold Utils.validateTodoText. split.
  - by rewrite trim_ws_around.
  - change (ws1 ++ ws2) with (ws1 ++ [] ++ ws2).
    by rewrite trim_ws_around.
Qed.

Lemma validateTodoText_ignores_padding_witness :
  Utils.validateTodoText (js "  " ++ js "Buy milk" ++ [9; 160; 10])
  = Utils.validateTodoText (js "Buy milk")
  ∧ Utils.validateTodoText (js "  " ++ [9; 160; 10])
    = Utils.Invalid (js "Todo text cannot be empty").
Proof.
  apply validateTodoText_ignores_padding; decide_closed.
Defined.

Lemma trim_no_ws_ends s :
  no_ws_head (trim s) ∧ no_ws_head (reverse (trim s)).
Proof.
  split.
  - apply trimEnd_no_ws_head, trimStart_no_ws_head.
  - unfold trim, trimEnd. rewrite reverse_involutive.
    apply trimStart_no_ws_head.
Qed.

(** X4: a text that [validateTodoText] accepts is in canonical form: it is
    the trimmed input, has between 1 and 100 code units, neither starts nor
    ends with white space, and is accepted unchanged when validated again. *)
Theorem validateTodoText_accepted_canonical value text :
  Utils.validateTodoText value = Utils.Valid text →
  text = trim value
  ∧ (1 ≤ length text ≤ 100)%nat
  ∧ no_ws_head text
  ∧ no_ws_head (reverse text)
  ∧ Utils.validateTodoText text = Utils.Valid text.
Proof.
  intros Hv. pose proof (validateTodoText_accepts_result _ _ Hv).
  apply validateTodoText_Valid in Hv as [-> Hlen].
  destruct (trim_no_ws_ends value).
  unfold CONFIG.MAX_TODO_LENGTH in Hlen. split_and!; try done; lia.
Qed.

Lemma validateTodoText_accepted_canonical_witness :
  js "Walk dog" = trim (js "  Walk dog ")
  ∧ (1 ≤ length (js "Walk dog") ≤ 100)%nat
  ∧ no_ws_head (js "Walk dog")
  ∧ no_ws_head (reverse (js "Walk dog"))
  ∧ Utils.validateTodoText (js "Walk dog") = Utils.Valid (js "Walk dog").
Proof.
  apply (validateTodoText_accepted_canonical (js "  Walk dog ")).
  reflexivity.
Defined.

(** ** Utils.generateId *)

Lemma split_at_dash d d' r r' :
  45 ∉ d → 45 ∉ d' → d ++ 45 :: r = d' ++ 45 :: r' → d = d' ∧ r = r'.
Proof.
  revert d'. induction d as [|c d IH]; intros [|c' d'] Hd Hd'; simpl.
  - by intros [= ->].
  - intros [= <- _]. apply not_elem_of_cons in Hd' as [? _]. done.
  - intros [= -> _]. apply not_elem_of_cons in Hd as [? _]. done.
  - intros [= -> H]. apply not_elem_of_cons in Hd as [_ Hd].
    apply not_elem_of_cons in Hd' as [_ Hd'].
    destruct (IH d' Hd Hd' H) as [-> ->]. done.
Qed.

(** X5: an identifier made by [generateId] is never the empty string (so it
    is truthy where [editingId] is tested), and when the clock readings are
    written without a dash, as the decimal digits of [Date.now()] are, two
    identifiers are equal only if both the clock reading and the random
    digits are equal. *)
Theorem generateId_distinguishes dateNow random36 dateNow' random36' :
  Utils.generateId dateNow random36 ≠ []
  ∧ (45 ∉ dateNow → 45 ∉ dateNow' →
     Utils.generateId dateNow random36 = Utils.generateId dateNow' random36' →
     dateNow = dateNow' ∧ random36 = random36').
Proof.
  unfold Utils.generateId. simpl. split.
  - by destruct dateNow.
  - apply split_at_dash.
Qed.

Lemma generateId_distinguishes_witness :
  js "1700000000000" = js "1700000000000" ∧ js "k3j9x2m1q" = js "k3j9x2m1q".
Proof.
  destruct (generateId_distinguishes (js "1700000000000") (js "k3j9x2m1q")
              (js "1700000000000") (js "k3j9x2m1q")) as [_ H].
  apply H; [decide_closed|decide_closed|reflexivity].
Defined.

(** ** How the controller methods compose *)

Lemma existsb_ext_Forall {A} (f g : A → bool) l :
  Forall (λ x, f x = g x) l → existsb f l = existsb g l.
Proof. induction 1 as [|x l Hx _ IH]; simpl; [done|]. by rewrite Hx, IH. Qed.

Section Composition.
Context `{E : Engine}.

Lemma isDuplicate_same_when_ids_differ text l id :
  id ∉ Todo.id <$> l →
  Utils.isDuplicate text l (Some id) = Utils.isDuplicate text l None.
Proof.
  intros Hid. unfold Utils.isDuplicate. apply existsb_ext_Forall.
  apply list.Forall_forall. intros todo Hin.
  assert (strict_ne (Todo.id todo) (Some id) = true) as ->; [|done].
  apply strict_ne_Some. intros <-. apply Hid. by apply list_elem_of_fmap_2.
Qed.

Lemma isDuplicate_app text l1 l2 excludeId :
  Utils.isDuplicate text (l1 ++ l2) excludeId
  = Utils.isDuplicate text l1 excludeId || Utils.isDuplicate text l2 excludeId.
Proof. unfold Utils.isDuplicate. apply existsb_app. Qed.

Lemma isDuplicate_exclude_delete text id app :
  NoDup (Todo.id <$> todos app) →
  Utils.isDuplicate text (todos app) (Some id)
  = Utils.isDuplicate text (todos (deleteTodo id app).1) None.
Proof.
  intros Hnd.
  destruct (decide (id ∈ Todo.id <$> todos app)) as [Hin|Hout].
  - destruct (deleteTodo_present id app Hin)
      as (before & target & after & Hl & Ht & Hb & ->).
    simpl. rewrite Hl in *. rewrite fmap_app in Hnd.
    apply list.NoDup_app in Hnd as (_ & _ & Hnd).
    change (Todo.id <$> target :: after)
      with (Todo.id target :: (Todo.id <$> after)) in Hnd.
    apply list.NoDup_cons in Hnd as [Ha _]. rewrite Ht in Ha.
    change (target :: after) with ([target] ++ after).
    rewrite !isDuplicate_app.
    rewrite (isDuplicate_same_when_ids_differ text before id Hb).
    rewrite (isDuplicate_same_when_ids_differ text after id Ha).
    unfold Utils.isDuplicate at 2. simpl. rewrite Ht.
    by rewrite bool_decide_eq_false_2 by (by intros ?).
  - rewrite deleteTodo_absent by done.
    by apply isDuplicate_same_when_ids_differ.
Qed.

(** X6: on a list whose identifiers are pairwise distinct, the scan that
    [saveEdit] makes with [excludeId] gives the answer that the scan
    [addTodo] makes would give after [deleteTodo] has removed the excluded
    item. *)
Theorem isDuplicate_excluding_is_after_delete text id app :
  NoDup (Todo.id <$> todos app) →
  Utils.isDuplicate text (todos app) (Some id)
  = Utils.isDuplicate text (todos (deleteTodo id app).1) None.
Proof. apply isDuplicate_exclude_delete. Qed.

(** X7: in a list that satisfies the data-model invariant, once an item has
    been deleted its text can be added again: [addTodo] with the text of the
    deleted item succeeds. *)
Theorem deleted_text_can_be_added_again i todo newId now app :
  well_formed (todos app) →
  todos app !! i = Some todo →
  let app' := (deleteTodo (Todo.id todo) app).1 in
  successful (addTodo (Todo.text todo) newId now app') = true
  ∧ todos (addTodo (Todo.text todo) newId now app').1
    = Todo.mk newId (Todo.text todo) now None false :: todos app'.
Proof.
  intros Hwf Hi app'.
  pose proof (well_formed_not_duplicate _ _ _ Hwf Hi) as Hd.
  rewrite (isDuplicate_exclude_delete _ _ app) in Hd
    by by destruct Hwf.
  fold app' in Hd. rewrite isDuplicate_false in Hd.
  assert (Utils.validateTodoText (Todo.text todo)
          = Utils.Valid (Todo.text todo)) as Hv.
  { destruct Hwf as [_ _ Hv]. rewrite list.Forall_forall in Hv.
    apply Hv. by eapply list_elem_of_lookup_2. }
  apply validateTodoText_Valid in Hv as [Htrim Hlen].
  rewrite (addTodo_accepted (Todo.text todo) newId now app').
  - rewrite <- Htrim. done.
  - done.
  - intros other Hin. rewrite <- Htrim. by apply Hd.
Qed.

(** X8: [deleteTodo] undoes a successful [addTodo]: deleting the identifier
    just given to the new item returns the state [addTodo] started from,
    whatever identifiers the other items carry. *)
Theorem deleteTodo_undoes_addTodo inputValue newId now app :
  successful (addTodo inputValue newId now app) = true →
  (deleteTodo newId (addTodo inputValue newId now app).1).1 = app.
Proof.
  intros Hs.
  destruct (addTodo_cases inputValue newId now app)
    as [[Hf _]|(_ & _ & _ & ->)]; [simpl in Hf; congruence|].
  unfold deleteTodo. simpl. unfold has_id at 1. simpl.
  rewrite bool_decide_eq_true_2 by done. simpl. by destruct app.
Qed.

End Composition.

Lemma isDuplicate_excluding_is_after_delete_witness :
  Utils.isDuplicate (E:=ascii_engine) (js "buy MILK") (todos app_milk_dog)
    (Some id_milk)
  = Utils.isDuplicate (E:=ascii_engine) (js "buy MILK")
      (todos (deleteTodo id_milk app_milk_dog).1) None.
Proof.
  apply (isDuplicate_excluding_is_after_delete (E:=ascii_engine)).
  decide_closed.
Defined.

Lemma deleted_text_can_be_added_again_witness :
  let app' := (deleteTodo id_milk app_milk_dog).1 in
  successful (addTodo (E:=ascii_engine) (js "Buy milk") (js "n") (js "t")
                app') = true
  ∧ todos (addTodo (E:=ascii_engine) (js "Buy milk") (js "n") (js "t")
             app').1
    = Todo.mk (js "n") (js "Buy milk") (js "t") None false :: todos app'.
Proof.
  apply (deleted_text_can_be_added_again (E:=ascii_engine) 1 todo_milk
           (js "n") (js "t") app_milk_dog app_milk_dog_well_formed eq_refl).
Defined.

Lemma deleteTodo_undoes_addTodo_witness :
  (deleteTodo id_dog app_milk_dog).1 = app_milk.
Proof.
  apply (deleteTodo_undoes_addTodo (E:=ascii_engine) (js "  Walk dog ")
           id_dog (js "2023-11-14T22:14:20.000Z") app_milk).
  reflexivity.
Defined.

(** ** What holds in every state the controller reaches *)

Section Reachable.
Context `{E : Engine}.

(** X9: in every state reached from the empty list by calls of the
    controller methods (a generated identifier being one no item carries
    yet), the identifiers of the items are pairwise distinct, and every text
    is trimmed and has between 1 and 100 code units. *)
Theorem reachable_ids_distinct_texts_valid app :
  rtc method_step initial app →
  NoDup (Todo.id <$> todos app)
  ∧ Forall (λ todo, trim (Todo.text todo) = Todo.text todo
                    ∧ (1 ≤ length (Todo.text todo) ≤ 100)%nat) (todos app).
Proof.
  intros [Hids _ Hvalid]%reachable_well_formed. split; [done|].
  eapply list.Forall_impl; [exact Hvalid|]. simpl.
  intros todo [Htrim Hlen]%validateTodoText_Valid.
  rewrite <- Htrim in Hlen. unfold CONFIG.MAX_TODO_LENGTH in Hlen. done.
Qed.

Lemma method_step_not_completed app app' :
  method_step app app' →
  Forall (λ todo, Todo.completed todo = false) (todos app) →
  Forall (λ todo, Todo.completed todo = false) (todos app').
Proof.
  intros Hstep Hall. destruct Hstep as
    [inputValue dateNow random36 now app Hfresh | id app | id app
    | id editInput now app | app | confirmed app]; try done.
  - destruct (addTodo_cases inputValue (Utils.generateId dateNow random36)
                now app) as [[_ ->]|(_ & _ & _ & ->)]; [done|].
    by constructor.
  - destruct (decide (id ∈ Todo.id <$> todos app)) as [Hin|Hout].
    + destruct (deleteTodo_present id app Hin)
        as (before & target & after & Hl & _ & _ & ->).
      simpl. rewrite Hl in Hall. apply Forall_app in Hall as [? Ha].
      inversion_clear Ha. by apply Forall_app.
    + by rewrite deleteTodo_absent.
  - destruct (saveEdit_cases id editInput now app)
      as [[_ ->]|(_ & value & before & target & after
                  & _ & _ & _ & Hl & _ & _ & ->)]; [done|].
    simpl. rewrite Hl in Hall. apply Forall_app in Hall as [? Ha].
    inversion_clear Ha. apply Forall_app. split; [done|]. by constructor.
  - destruct (clearAll_cases confirmed app) as [->|(_ & _ & ->)]; [done|].
    constructor.
Qed.

Lemma filter_none {A} (P : A → Prop) `{∀ x, Decision (P x)} (l : list A) :
  Forall (λ x, ¬ P x) l → filter P l = [].
Proof.
  induction 1 as [|x l Hx _ IH]; [done|]. by rewrite filter_cons_False.
Qed.

(** X10: no controller method ever marks an item completed: in every state
    reached from the empty list all items have [completed = false], and
    [updateTodoCount] displays the length of the list and a completed count
    of zero. *)
Theorem reachable_nothing_completed app :
  rtc method_step initial app →
  Forall (λ todo, Todo.completed todo = false) (todos app)
  ∧ updateTodoCount app = (length (todos app), 0%nat).
Proof.
  intros Hreach.
  assert (Forall (λ todo, Todo.completed todo = false) (todos app)) as Hall.
  { revert app Hreach.
    apply (rtc_ind_r (λ a, Forall (λ todo, Todo.completed todo = false)
                              (todos a))).
    - constructor.
    - intros mid app _ Hstep IH. by eapply method_step_not_completed. }
  split; [done|]. unfold updateTodoCount. f_equal.
  rewrite filter_none; [done|].
  eapply list.Forall_impl; [exact Hall|]. simpl. by intros todo ->.
Qed.

(** X11: no controller method reorders the items or changes the identifier
    or the creation time of one: after a call, either one new item stands in
    front of the unchanged list, or the sequence of (identifier, creation
    time) pairs is the former one with some entries left out. *)
Theorem method_step_keeps_order app app' :
  method_step app app' →
  (∃ newTodo, todos app' = newTodo :: todos app)
  ∨ (item_key <$> todos app') `sublist_of` (item_key <$> todos app).
Proof.
  intros Hstep. destruct Hstep as
    [inputValue dateNow random36 now app Hfresh | id app | id app
    | id editInput now app | app | confirmed app]; try by right.
  - destruct (addTodo_cases inputValue (Utils.generateId dateNow random36)
                now app) as [[_ ->]|(_ & _ & _ & ->)]; [by right|].
    left. by eexists.
  - right. unfold deleteTodo.
    destruct (findIndex (has_id id) (todos app)) as [i|]; [|done].
    simpl. rewrite list_fmap_delete. apply sublist_delete.
  - right.
    destruct (saveEdit_cases id editInput now app)
      as [[_ ->]|(_ & value & before & target & after
                  & _ & _ & _ & Hl & _ & _ & ->)]; [done|].
    simpl. rewrite Hl, !fmap_app. done.
  - right.
    destruct (clearAll_cases confirmed app) as [->|(_ & _ & ->)]; [done|].
    apply sublist_nil_l.
Qed.

End Reachable.

Lemma reachable_ids_distinct_texts_valid_witness :
  NoDup (Todo.id <$> todos app_milk_dog)
  ∧ Forall (λ todo, trim (Todo.text todo) = Todo.text todo
                    ∧ (1 ≤ length (Todo.text todo) ≤ 100)%nat)
      (todos app_milk_dog).
Proof.
  apply (reachable_ids_distinct_texts_valid (E:=ascii_engine)).
  apply app_milk_dog_reachable.
Defined.

Lemma reachable_nothing_completed_witness :
  Forall (λ todo, Todo.completed todo = false) (todos app_milk_dog)
  ∧ updateTodoCount app_milk_dog = (2%nat, 0%nat).
Proof.
  apply (reachable_nothing_completed (E:=ascii_engine)).
  apply app_milk_dog_reachable.
Defined.

Lemma method_step_keeps_order_witness :
  (∃ newTodo, todos (deleteTodo id_milk app_milk_dog).1
              = newTodo :: todos app_milk_dog)
  ∨ (item_key <$> todos (deleteTodo id_milk app_milk_dog).1)
      `sublist_of` (item_key <$> todos app_milk_dog).
Proof.
  apply (method_step_keeps_order (E:=ascii_engine)).
  apply call_deleteTodo.
Defined.

(** ** TodoApp.validateElements and init *)

Section Init.
Context `{E : Engine} {Element : Type}.
Implicit Types (getElementById : jsstring → option Element).

Lemma validate_required_found getElementById names elements :
  Forall (λ name, is_Some (getElementById name)) names →
  ∃ elements',
    validate_required getElementById names elements = Normal elements'
    ∧ (∀ name, name ∈ names → elements' !! name = getElementById name)
    ∧ (∀ name, name ∉ names → elements' !! name = elements !! name).
Proof.
  intros Hall. revert elements.
  induction Hall as [|n names [el Hel] _ IH]; intros elements; simpl.
  - exists elements. split_and!; [done| |done]. by intros name ?%elem_of_nil.
  - rewrite Hel. destruct (IH (<[n := el]> elements))
      as (elements' & -> & Hin & Hout).
    exists elements'. split_and!; [done|..].
    + intros name [->|Hname]%elem_of_cons; [|by apply Hin].
      destruct (decide (n ∈ names)) as [?|Hn]; [by apply Hin|].
      by rewrite (Hout n Hn), lookup_insert_eq.
    + intros name [Hne Hname]%not_elem_of_cons.
      by rewrite (Hout name Hname), lookup_insert_ne.
Qed.

Lemma validate_required_missing getElementById before name after elements :
  Forall (λ b, is_Some (getElementById b)) before →
  getElementById name = None →
  validate_required getElementById (before ++ name :: after) elements
  = Throw (js "Required element not found: " ++ name).
Proof.
  intros Hall Hname. revert elements.
  induction Hall as [|b before [el Hel] _ IH]; intros elements; simpl.
  - by rewrite Hname.
  - rewrite Hel. apply IH.
Qed.

(** X15: the page starts exactly when the four required elements are there
    and [render] does not throw on the loaded list.  With the four elements,
    [validateElements] records each of them and the optional counter, and
    [loadTodos] returns whatever the store holds; the page then runs when
    [render] returns, and shows the error page with the message of the error
    when [render] throws.  When a required element is missing, the
    constructor throws an error that names the first missing one, in the
    order [todoInput], [addTodoBtn], [todoList], [emptyState], the store is
    not read, and the page start shows the error page with that message
    instead of throwing. *)
Theorem init_needs_required_elements getElementById getItem render :
  (Forall (λ name, is_Some (getElementById name)) requiredElements →
   ∃ elements items,
     validateElements getElementById ∅ = Normal elements
     ∧ (∀ name, name ∈ requiredElements →
          elements !! name = getElementById name)
     ∧ elements !! js "todoCount" = getElementById (js "todoCount")
     ∧ loadTodos getItem = Normal items
     ∧ (render items = Normal () →
        onDOMContentLoaded getElementById getItem render
        = Normal (Running
                    (mkStarted elements items
                       [Render;
                        Show (js "Todo app loaded successfully!") Success])))
     ∧ (∀ message,
          render items = Throw message →
          onDOMContentLoaded getElementById getItem render
          = Normal (ErrorPage message)))
  ∧ (∀ before name after,
       requiredElements = before ++ name :: after →
       Forall (λ b, is_Some (getElementById b)) before →
       getElementById name = None →
       init getElementById getItem render
       = Throw (js "Required element not found: " ++ name)
       ∧ onDOMContentLoaded getElementById getItem render
         = Normal (ErrorPage (js "Required element not found: " ++ name))).
Proof.
  split.
  - intros Hall.
    destruct (validate_required_found getElementById requiredElements ∅ Hall)
      as (elements & Hv & Hin & Hout).
    destruct (loadTodos_returns getItem) as [items Hitems].
    exists (assign_element (js "todoCount")
              (getElementById (js "todoCount")) elements), items.
    unfold onDOMContentLoaded, init, validateElements.
    rewrite Hv. cbn [mbind mret Completion_bind Completion_ret].
    rewrite Hitems.
    split_and!; [done|..|done| |].
    + intros name Hname. unfold assign_element.
      assert (name ≠ js "todoCount") as Hne.
      { intros ->. revert Hname. decide_closed. }
      destruct (getElementById (js "todoCount")).
      * rewrite lookup_insert_ne by done. by apply Hin.
      * rewrite lookup_delete_ne by done. by apply Hin.
    + unfold assign_element.
      destruct (getElementById (js "todoCount")).
      * by rewrite lookup_insert_eq.
      * by rewrite lookup_delete_eq.
    + intros Hr. cbn. by rewrite Hr.
    + intros message Hr. cbn. by rewrite Hr.
  - intros before name after Hreq Hall Hname.
    unfold onDOMContentLoaded, init, validateElements. rewrite Hreq.
    by rewrite (validate_required_missing _ _ _ _ _ Hall Hname).
Qed.

End Init.

Lemma init_needs_required_elements_witness :
  (∃ elements,
     onDOMContentLoaded (E:=ascii_engine) sample_document
       (Normal (Some (js "[]"))) sample_render
     = Normal (Running
                 (mkStarted elements []
                    [Render; Show (js "Todo app loaded successfully!") Success]))
     ∧ elements !! js "todoList" = Some 3%nat
     ∧ elements !! js "todoCount" = None)
  ∧ onDOMContentLoaded (E:=null_engine) sample_document
      (Normal (Some (js "[null]"))) sample_render
    = Normal (ErrorPage (js "Cannot read properties of null (reading 'id')"))
  ∧ onDOMContentLoaded (E:=ascii_engine) sample_document_no_list
      (Normal (Some (js "[]"))) sample_render
    = Normal (ErrorPage (js "Required element not found: todoList")).
Proof.
  assert (Forall (λ name, is_Some (sample_document name)) requiredElements)
    as Hall by (repeat constructor; by eexists).
  destruct (init_needs_required_elements (E:=ascii_engine) sample_document
              (Normal (Some (js "[]"))) sample_render) as [Hok _].
  destruct (init_needs_required_elements (E:=null_engine) sample_document
              (Normal (Some (js "[null]"))) sample_render) as [Hnull _].
  destruct (init_needs_required_elements (E:=ascii_engine)
              sample_document_no_list (Normal (Some (js "[]"))) sample_render)
    as [_ Hmissing].
  split_and!.
  - destruct (Hok Hall) as (elements & items & _ & Hreq & Hcount & Hload
                            & Hrun & _).
    assert (items = []) as -> by (by injection Hload).
    exists elements. split_and!.
    + by apply Hrun.
    + rewrite Hreq; [reflexivity|decide_closed].
    + by rewrite Hcount.
  - destruct (Hnull Hall) as (elements & items & _ & _ & _ & Hload & _
                              & Hthrow).
    assert (items = [JNull]) as -> by (by injection Hload).
    by apply Hthrow.
  - apply (Hmissing [js "todoInput"; js "addTodoBtn"] (js "todoList")
             [js "emptyState"]); [reflexivity| |reflexivity].
    repeat constructor; by eexists.
Defined.

(** ** StorageService.save, load and clear *)

Section Storage.
Context `{E : Engine} `{S : Stringifier}.

(** X16: [StorageService.save] never throws.  It returns [true] exactly when
    the value could be serialised and the browser accepted the write, and
    then the key holds the serialised text; when it returns [false] the
    store is as it was.  Other keys are never touched. *)
Theorem save_never_throws refused key data store :
  ∃ success store',
    StorageService_save refused key data store = Normal (success, store')
    ∧ (success = true ↔
       refused = false ∧ ∃ text, JSON_stringify data = Normal text)
    ∧ (success = true → ∀ text, JSON_stringify data = Normal text →
       store' = <[key := text]> store)
    ∧ (success = false → store' = store)
    ∧ (∀ other, other ≠ key → store' !! other = store !! other).
Proof.
  unfold StorageService_save, setItem.
  destruct (JSON_stringify data) as [text|error] eqn:Hs; simpl.
  - destruct refused; simpl.
    + exists false, store. split; [done|]. split; [|done].
      split; [done|by intros [? _]].
    + exists true, (<[key := text]> store). split; [done|].
      split; [|split; [|split]].
      * split; [|done]. intros _. split; [done|]. by exists text.
      * by intros _ text' [= <-].
      * done.
      * intros other Hne. by rewrite lookup_insert_ne.
  - exists false, store. split; [done|]. split; [|done].
    split; [done|by intros [_ [? ?]]].
Qed.

(** X17: what [save] stored, [load] returns: after a successful [save] under
    a key, [load] of that key gives the saved value, provided the engine
    parses the text it serialised back to that value (the text not being
    empty); in particular a saved array is what [loadTodos] then yields. *)
Theorem save_then_load key data text store defaultValue :
  JSON_stringify data = Normal text →
  text ≠ [] →
  JSON_parse text = Normal data →
  ∃ store',
    StorageService_save false key data store = Normal (true, store')
    ∧ StorageService.load (getItem false key store') defaultValue
      = Normal data
    ∧ (key = STORAGE_KEY → ∀ items, data = JArray items →
       loadTodos (getItem false key store') = Normal items).
Proof.
  intros Hs Hne Hp. exists (<[key := text]> store).
  assert (StorageService.load (getItem false key (<[key:=text]> store))
            defaultValue = Normal data) as Hload.
  { unfold StorageService.load, getItem. rewrite lookup_insert_eq. simpl.
    destruct text as [|c s]; [done|]. simpl. by rewrite Hp. }
  split_and!.
  - unfold StorageService_save, setItem. by rewrite Hs.
  - done.
  - intros -> items ->. unfold loadTodos.
    assert (StorageService.load (getItem false STORAGE_KEY
                                   (<[STORAGE_KEY:=text]> store))
              (JArray []) = Normal (JArray items)) as ->; [|done].
    unfold StorageService.load, getItem. rewrite lookup_insert_eq. simpl.
    destruct text as [|c s]; [done|]. simpl. by rewrite Hp.
Qed.

(** X18: [StorageService.clear] never throws; after a clear that the browser
    accepted, [load] of the key gives the default value and [loadTodos] the
    empty list, whatever was stored; a refused clear leaves the store as it
    was and reports [false]. *)
Theorem clear_then_load key store defaultValue :
  (∃ store',
     StorageService_clear false key store = Normal (true, store')
     ∧ store' !! key = None
     ∧ StorageService.load (getItem false key store') defaultValue
       = Normal defaultValue
     ∧ (key = STORAGE_KEY → loadTodos (getItem false key store') = Normal []))
  ∧ StorageService_clear true key store = Normal (false, store).
Proof.
  split; [|done]. exists (delete key store).
  assert (getItem false key (delete key store) = Normal None) as Hget.
  { unfold getItem. by rewrite lookup_delete_eq. }
  split_and!.
  - done.
  - apply lookup_delete_eq.
  - by rewrite Hget.
  - intros _. by rewrite Hget.
Qed.

End Storage.

Lemma save_never_throws_witness :
  StorageService_save (S:=sample_stringifier) false STORAGE_KEY
    (todos_to_json []) ∅
  = Normal (true, {[STORAGE_KEY := js "[]"]}).
Proof.
  destruct (save_never_throws (S:=sample_stringifier) false STORAGE_KEY
              (todos_to_json []) ∅)
    as (success & store' & Hsave & Hiff & Hstore & _).
  assert (success = true) as ->.
  { apply Hiff. split; [done|]. by eexists. }
  rewrite Hsave. by rewrite (Hstore eq_refl (js "[]")).
Defined.

Lemma save_then_load_witness :
  ∃ store',
    StorageService_save (S:=sample_stringifier) false STORAGE_KEY
      (JArray []) ∅ = Normal (true, store')
    ∧ StorageService.load (E:=ascii_engine)
        (getItem false STORAGE_KEY store') JNull = Normal (JArray [])
    ∧ loadTodos (E:=ascii_engine) (getItem false STORAGE_KEY store')
      = Normal [].
Proof.
  destruct (save_then_load (E:=ascii_engine) (S:=sample_stringifier)
              STORAGE_KEY (JArray []) (js "[]") ∅ JNull)
    as (store' & H1 & H2 & H3); [reflexivity|discriminate|reflexivity|].
  exists store'. split_and!; [done|done|]. by apply H3.
Defined.

Lemma clear_then_load_witness :
  ∃ store',
    StorageService_clear false STORAGE_KEY {[STORAGE_KEY := js "{broken"]}
    = Normal (true, store')
    ∧ loadTodos (E:=ascii_engine) (getItem false STORAGE_KEY store')
      = Normal [].
Proof.
  destruct (clear_then_load (E:=ascii_engine) STORAGE_KEY
              {[STORAGE_KEY := js "{broken"]} JNull)
    as [(store' & H1 & _ & _ & H2) _].
  exists store'. split; [done|]. by apply H2.
Defined.

(** ** Utils.debounce *)

Section Debounce.
Context {A : Type} (delay : nat).
Implicit Types (d : Debounced A) (slot : option (nat * A)).

Lemma debounced_call_matches now args d slot :
  slot_matches delay d slot →
  slot_matches delay (debounced_call delay now args d) (Some (now, args)).
Proof.
  intros Hm. unfold debounced_call. simpl. eexists. split; [done|].
  assert (pending (clearTimeout (timeoutId d) (timers d)) = ∅) as ->.
  { destruct slot as [[called args']|]; simpl in Hm.
    - destruct Hm as (id & -> & Hp). simpl. rewrite Hp.
      apply delete_singleton_eq.
    - destruct (timeoutId d); simpl; rewrite Hm; [|done].
      apply delete_empty. }
  apply insert_empty.
Qed.

Lemma timer_fires_matches now id d slot args d' :
  slot_matches delay d slot →
  timer_fires now id d = Some (args, d') →
  ∃ called, slot = Some (called, args) ∧ (called + delay ≤ now)%nat
            ∧ slot_matches delay d' None.
Proof.
  intros Hm. unfold timer_fires.
  destruct (pending (timers d) !! id) as [[due args']|] eqn:Hp; [|done].
  destruct (decide (due ≤ now)%nat) as [Hdue|]; [|done].
  intros [= <- <-]. destruct slot as [[called args'']|]; simpl in Hm.
  - destruct Hm as (id' & _ & Hs). rewrite Hs in Hp.
    apply lookup_singleton_Some in Hp as [<- [= <- <-]].
    exists called. split_and!; [done|done|]. simpl. rewrite Hs.
    apply delete_singleton_eq.
  - by rewrite Hm in Hp.
Qed.

Lemma debounce_run_refines events clock d slot d' applied :
  slot_matches delay d slot →
  debounce_run delay events clock d = Some (d', applied) →
  last_call_wins delay events slot = Some applied
  ∧ ∃ slot', slot_matches delay d' slot'.
Proof.
  revert clock d slot d' applied.
  induction events as [|[now args|now id] rest IH];
    intros clock d slot d' applied Hm; simpl.
  - intros [= <- <-]. split; [done|]. by exists slot.
  - destruct (decide (clock ≤ now)%nat); [|done]. intros Hrun.
    eapply IH; [|done]. by eapply debounced_call_matches.
  - destruct (decide (clock ≤ now)%nat); [|done].
    destruct (timer_fires now id d) as [[args d1]|] eqn:Hf; [|done].
    destruct (debounce_run delay rest now d1) as [[d2 applied']|] eqn:Hrun;
      [|done].
    intros [= <- <-].
    destruct (timer_fires_matches _ _ _ _ _ _ Hm Hf)
      as (called & -> & Hdue & Hm1).
    destruct (IH _ _ _ _ _ Hm1 Hrun) as [Hspec Hfinal].
    split; [|done]. rewrite decide_True by done. by rewrite Hspec.
Qed.

Lemma debounce_run_app events1 events2 clock d d' applied :
  debounce_run delay (events1 ++ events2) clock d = Some (d', applied) →
  ∃ clock1 d1 applied1 applied2,
    debounce_run delay events1 clock d = Some (d1, applied1)
    ∧ debounce_run delay events2 clock1 d1 = Some (d', applied2)
    ∧ applied = applied1 ++ applied2.
Proof.
  revert clock d d' applied.
  induction events1 as [|[now args|now id] rest IH];
    intros clock d d' applied; simpl.
  - intros Hrun. by exists clock, d, [], applied.
  - destruct (decide (clock ≤ now)%nat); [|done]. apply IH.
  - destruct (decide (clock ≤ now)%nat); [|done].
    destruct (timer_fires now id d) as [[args d1]|]; [|done].
    destruct (debounce_run delay (rest ++ events2) now d1)
      as [[d2 applied']|] eqn:Hrun; [|done].
    intros [= <- <-].
    destruct (IH _ _ _ _ Hrun) as (clock1 & d3 & a1 & a2 & -> & H2 & ->).
    by exists clock1, d3, ((now, args) :: a1), a2.
Qed.

(** X19: however calls of a debounced function and runs of its timers
    interleave, the function behaves as a single slot that the latest call
    overwrites: [func] is applied only to the arguments of the most recent
    call, no earlier than [delay] after that call, and at most once per
    call; at most one timer is pending at any time; a timer that runs right
    after a call applies [func] to the arguments of that call; and two timer
    runs without a call between them cannot happen. *)
Theorem debounce_last_call_wins events clock :
  (∀ d' applied,
     debounce_run delay events clock debounce = Some (d', applied) →
     last_call_wins delay events None = Some applied
     ∧ (size (pending (timers d')) ≤ 1)%nat)
  ∧ (∀ before called args now id after d' applied,
       events = before ++ Called called args :: Fired now id :: after →
       debounce_run delay events clock debounce = Some (d', applied) →
       (now, args) ∈ applied ∧ (called + delay ≤ now)%nat)
  ∧ (∀ before now id now' id' after,
       events = before ++ Fired now id :: Fired now' id' :: after →
       debounce_run (A:=A) delay events clock debounce = None).
Proof.
  assert (slot_matches (A:=A) delay debounce None) as H0 by done.
  split_and!.
  - intros d' applied Hrun.
    destruct (debounce_run_refines _ _ _ _ _ _ H0 Hrun)
      as [Hspec [slot' Hm]].
    split; [done|]. destruct slot' as [[called args]|]; simpl in Hm.
    + destruct Hm as (id & _ & ->). by rewrite map_size_singleton.
    + rewrite Hm. rewrite map_size_empty. lia.
  - intros before called args now id after d' applied -> Hrun.
    apply debounce_run_app in Hrun
      as (clock1 & d1 & a1 & a2 & Hrun1 & Hrun2 & ->).
    destruct (debounce_run_refines _ _ _ _ _ _ H0 Hrun1) as [_ [slot1 Hm1]].
    simpl in Hrun2. destruct (decide (clock1 ≤ called)%nat); [|done].
    destruct (decide (called ≤ now)%nat); [|done].
    destruct (timer_fires now id (debounced_call delay called args d1))
      as [[args' d2]|] eqn:Hf; [|done].
    destruct (debounce_run delay after now d2) as [[d3 a3]|]; [|done].
    injection Hrun2 as <- <-.
    destruct (timer_fires_matches _ _ _ _ _ _
                (debounced_call_matches called args d1 slot1 Hm1) Hf)
      as (called' & [= <- <-] & Hdue & _).
    split; [|done]. rewrite elem_of_app. right. by left.
  - intros before now id now' id' after ->.
    destruct (debounce_run delay _ clock debounce) as [[d' applied]|] eqn:Hrun;
      [|done]. exfalso.
    apply debounce_run_app in Hrun
      as (clock1 & d1 & a1 & a2 & Hrun1 & Hrun2 & ->).
    destruct (debounce_run_refines _ _ _ _ _ _ H0 Hrun1) as [_ [slot1 Hm1]].
    simpl in Hrun2. destruct (decide (clock1 ≤ now)%nat); [|done].
    destruct (timer_fires now id d1) as [[args d2]|] eqn:Hf; [|done].
    destruct (timer_fires_matches _ _ _ _ _ _ Hm1 Hf) as (_ & _ & _ & Hm2).
    destruct (decide (now ≤ now')%nat); [|done].
    unfold timer_fires in Hrun2 at 1. simpl in Hm2. rewrite Hm2 in Hrun2.
    by rewrite lookup_empty in Hrun2.
Qed.

End Debounce.

Lemma debounce_last_call_wins_witness :
  let events := [Called 0 (js "a"); Called 100 (js "b"); Fired 400 1;
                 Called 500 (js "c"); Fired 800 2]%nat in
  debounce_run 300 events 0 debounce
  = Some (mkDebounced (Some 2%nat) (mkTimers ∅ 3),
          [(400%nat, js "b"); (800%nat, js "c")])
  ∧ last_call_wins 300 events None
    = Some [(400%nat, js "b"); (800%nat, js "c")]
  ∧ (100 + 300 ≤ 400)%nat.
Proof.
  intros events.
  destruct (debounce_last_call_wins 300 events 0) as (Hspec & Hlast & _).
  assert (debounce_run 300 events 0 debounce
          = Some (mkDebounced (Some 2%nat) (mkTimers ∅ 3),
                  [(400%nat, js "b"); (800%nat, js "c")])) as Hrun
    by by vm_compute.
  split_and!.
  - done.
  - by apply (Hspec _ _ Hrun).
  - by apply (Hlast [Called 0%nat (js "a")] 100%nat (js "b") 400%nat 1%nat
                [Called 500%nat (js "c"); Fired 800%nat 2%nat] _ _ eq_refl Hrun).
Defined.

(** ** The debounced save and the store *)

Section Persistence.
Context `{E : Engine} `{S : Stringifier}.

(** What a call asks for: a debounced save after a change of the list, a
    clear of the store after emptying it, and nothing when the list is as it
    was. *)
Lemma call_effects c app :
  let r := call c app in
  (existsb is_debounced_save r.2 = true
   ∧ existsb is_storage_clear r.2 = false)
  ∨ (existsb is_debounced_save r.2 = false
     ∧ existsb is_storage_clear r.2 = true ∧ todos r.1 = [])
  ∨ (existsb is_debounced_save r.2 = false
     ∧ existsb is_storage_clear r.2 = false ∧ todos r.1 = todos app).
Proof.
  destruct c; cbn [call]; cbv zeta;
    unfold addTodo, deleteTodo, startEdit, saveEdit, cancelEdit, clearAll;
    repeat case_match; cbn [fst snd existsb is_debounced_save
      is_storage_clear orb todos]; auto.
Qed.

Lemma perform_app now refused w e :
  world_app (perform now refused w e) = world_app w.
Proof.
  destruct e; simpl; try done.
  by destruct (StorageService_clear _ _ _) as [[? ?]|].
Qed.

Lemma foldl_perform_app now refused effects w :
  world_app (foldl (perform now refused) w effects) = world_app w.
Proof.
  revert w. induction effects as [|e effects IH]; intros w; simpl; [done|].
  by rewrite IH, perform_app.
Qed.

Lemma foldl_perform_no_clear now refused effects w :
  existsb is_storage_clear effects = false →
  localStorage (foldl (perform now refused) w effects) = localStorage w.
Proof.
  revert w. induction effects as [|e effects IH]; intros w; simpl; [done|].
  intros [He Hrest]%orb_false_iff. rewrite IH by done. by destruct e.
Qed.

Lemma foldl_perform_no_save now refused effects w :
  existsb is_debounced_save effects = false →
  debouncedSave (foldl (perform now refused) w effects) = debouncedSave w.
Proof.
  revert w. induction effects as [|e effects IH]; intros w; simpl; [done|].
  intros [He Hrest]%orb_false_iff. rewrite IH by done.
  destruct e; simpl; try done.
  by destruct (StorageService_clear _ _ _) as [[? ?]|].
Qed.

Lemma foldl_perform_matches now refused effects w slot :
  slot_matches DEBOUNCE_DELAY (debouncedSave w) slot →
  ∃ slot',
    slot_matches DEBOUNCE_DELAY
      (debouncedSave (foldl (perform now refused) w effects)) slot'
    ∧ (existsb is_debounced_save effects = true → is_Some slot').
Proof.
  revert w slot. induction effects as [|e effects IH]; intros w slot Hm; simpl.
  - exists slot. split; [done|]. done.
  - destruct (is_debounced_save e) eqn:He.
    + destruct e; try done. simpl.
      destruct (IH (perform now refused w DebouncedSave) (Some (now, tt)))
        as (slot' & Hm' & _).
      { simpl. by eapply debounced_call_matches. }
      clear IH. revert Hm'. generalize (perform now refused w DebouncedSave).
      intros w1 Hm1.
      assert (∀ effects w1 slot1,
                slot_matches DEBOUNCE_DELAY (debouncedSave w1) slot1 →
                is_Some slot1 →
                ∃ slot2,
                  slot_matches DEBOUNCE_DELAY
                    (debouncedSave (foldl (perform now refused) w1 effects))
                    slot2 ∧ is_Some slot2) as Hkeep.
      { clear. intros effects.
        induction effects as [|e effects IH]; intros w1 slot1 Hm1 Hs; simpl.
        - by exists slot1.
        - destruct e; simpl; try by eapply IH.
          + eapply (IH _ (Some (now, tt))); [|done].
            simpl. by eapply debounced_call_matches.
          + destruct (StorageService_clear _ _ _) as [[? ?]|];
              by eapply IH. }
      destruct (Hkeep effects (perform now refused w DebouncedSave)
                  (Some (now, tt))) as (slot2 & Hm2 & Hs2); [|done|].
      { simpl. by eapply debounced_call_matches. }
      by exists slot2.
    + simpl. apply (IH (perform now refused w e) slot).
      destruct e; simpl; try done.
      by destruct (StorageService_clear _ _ _) as [[? ?]|].
Qed.

Lemma perform_clear now w :
  perform now false w StorageClear
  = mkWorld (world_app w) (debouncedSave w)
      (delete STORAGE_KEY (localStorage w)) (world_clock w).
Proof. reflexivity. Qed.

Lemma foldl_perform_stays_cleared now effects w :
  localStorage w !! STORAGE_KEY = None →
  localStorage (foldl (perform now false) w effects) !! STORAGE_KEY = None.
Proof.
  revert w. induction effects as [|e effects IH]; intros w Hw; [done|].
  cbn [foldl]. apply IH. destruct e; try done.
  rewrite perform_clear. cbn [localStorage]. apply lookup_delete_eq.
Qed.

Lemma foldl_perform_cleared now effects w :
  existsb is_storage_clear effects = true →
  localStorage (foldl (perform now false) w effects) !! STORAGE_KEY = None.
Proof.
  revert w. induction effects as [|e effects IH]; intros w; [done|].
  cbn [foldl existsb]. destruct (is_storage_clear e) eqn:He.
  - intros _. destruct e; try done. apply foldl_perform_stays_cleared.
    rewrite perform_clear. cbn [localStorage]. apply lookup_delete_eq.
  - apply IH.
Qed.

Lemma slot_matches_pending {A} delay (d : Debounced A) slot :
  slot_matches delay d slot →
  (size (pending (timers d)) ≤ 1)%nat
  ∧ (pending (timers d) = ∅ ↔ slot = None).
Proof.
  destruct slot as [[called args]|]; simpl.
  - intros (id & _ & ->). rewrite map_size_singleton. split; [done|].
    split; [|done]. intros H. by apply map_non_empty_singleton in H.
  - intros ->. rewrite map_size_empty. split; [lia|done].
Qed.

Lemma in_sync_untouched w0 w :
  untouched w0 w → in_sync w0 → in_sync w.
Proof. unfold untouched, in_sync. by intros [-> ->]. Qed.

Lemma world_step_inv w0 wev w w' :
  (∀ l, ∃ text, JSON_stringify (todos_to_json l) = Normal text) →
  undisturbed wev = true →
  world_step wev w = Some w' → world_inv w0 w → world_inv w0 w'.
Proof.
  intros Htotal Hok Hstep [[slot Hm] Hsync].
  destruct wev as [now c refused|now id refused|now refused];
    simpl in Hok; [| |done];
    apply negb_true_iff in Hok as ->; unfold world_step in Hstep;
    (destruct (decide (world_clock w ≤ now)%nat); [|done]).
  - cbv zeta in Hstep. injection Hstep as <-.
    set (r := call c (world_app w)).
    set (w1 := mkWorld r.1 (debouncedSave w) (localStorage w) now).
    destruct (foldl_perform_matches now false r.2 w1 slot Hm)
      as (slot' & Hm' & Hsome).
    split; [by exists slot'|]. intros Hempty.
    apply (slot_matches_pending _ _ _ Hm') in Hempty as ->.
    pose proof (call_effects c (world_app w)) as Heff.
    cbv zeta in Heff. fold r in Heff.
    destruct Heff
      as [[Hsave _]|[(Hsave & Hclear & Hnil)|(Hsave & Hclear & Hsame)]].
    + by destruct (Hsome Hsave).
    + left. unfold in_sync. rewrite foldl_perform_app. simpl. rewrite Hnil.
      by rewrite (foldl_perform_cleared now r.2 w1 Hclear).
    + assert (pending (timers (debouncedSave w)) = ∅) as Hw.
      { pose proof (foldl_perform_no_save now false r.2 w1 Hsave) as Hd0.
        cbn [debouncedSave w1] in Hd0. rewrite <- Hd0.
        by apply (slot_matches_pending _ _ _ Hm'). }
      destruct (Hsync Hw) as [Hin|[Htodos Hstore]].
      * left. unfold in_sync in *.
        rewrite foldl_perform_app, foldl_perform_no_clear by done.
        simpl. by rewrite Hsame.
      * right. unfold untouched.
        rewrite foldl_perform_app, foldl_perform_no_clear by done.
        simpl. by rewrite Hsame.
  - destruct (timer_fires now id (debouncedSave w)) as [[[] d']|] eqn:Hf;
      [|done].
    destruct (timer_fires_matches _ _ _ _ _ _ _ Hm Hf) as (_ & _ & _ & Hm').
    destruct (Htotal (todos (world_app w))) as [text Htext].
    unfold saveTodos, StorageService_save, setItem in Hstep.
    rewrite Htext in Hstep. simpl in Hstep. injection Hstep as <-.
    split; [by exists None|]. intros _. left. unfold in_sync. simpl.
    by rewrite lookup_insert_eq.
Qed.

Lemma world_run_inv w0 events w w' :
  (∀ l, ∃ text, JSON_stringify (todos_to_json l) = Normal text) →
  forallb undisturbed events = true →
  world_run events w = Some w' → world_inv w0 w → world_inv w0 w'.
Proof.
  intros Htotal. revert w.
  induction events as [|wev rest IH]; intros w Hok; simpl.
  - by intros [= <-].
  - simpl in Hok. apply andb_true_iff in Hok as [Hwev Hrest].
    destruct (world_step wev w) as [w1|] eqn:Hstep; [|done].
    intros Hrun Hinv. apply (IH w1 Hrest Hrun).
    by eapply world_step_inv.
Qed.

Lemma world_start_inv w0 :
  pending (timers (debouncedSave w0)) = ∅ → world_inv w0 w0.
Proof. intros Hw0. split; [by exists None|]. intros _. by right. Qed.

(** X20: take a page on which no save is pending, as when it has just
    loaded, whatever its store holds.  Along any history of controller calls
    and timer runs in which no storage access is refused and the page is not
    reloaded, the debounced save never has more than one timer pending, and
    whenever none is pending, either the store holds the serialisation of
    the list in memory (or nothing, the list being empty), or neither the
    list nor the store has changed since the start.  So the store is in sync
    from the first completed save or clear on, and all along when it was in
    sync at the start. *)
Theorem debounced_save_keeps_store_in_sync events w0 w :
  (∀ l, ∃ text, JSON_stringify (todos_to_json l) = Normal text) →
  pending (timers (debouncedSave w0)) = ∅ →
  forallb undisturbed events = true →
  world_run events w0 = Some w →
  (size (pending (timers (debouncedSave w))) ≤ 1)%nat
  ∧ (pending (timers (debouncedSave w)) = ∅ → in_sync w ∨ untouched w0 w)
  ∧ (in_sync w0 → pending (timers (debouncedSave w)) = ∅ → in_sync w).
Proof.
  intros Htotal Hstart Hok Hrun.
  destruct (world_run_inv w0 events w0 w Htotal Hok Hrun
              (world_start_inv w0 Hstart)) as [[slot Hm] Hsync].
  split_and!.
  - by apply (slot_matches_pending _ _ _ Hm).
  - done.
  - intros Hw0 Hempty. destruct (Hsync Hempty) as [?|Hsame]; [done|].
    by eapply in_sync_untouched.
Qed.


Lemma todo_of_json_to_json todo : todo_of_json (todo_to_json todo) = Some todo.
Proof. by destruct todo as [? ? ? [?|] ?]. Qed.

Lemma todos_of_json_to_json l : todos_of_json (todo_to_json <$> l) = Some l.
Proof. apply mapM_fmap_Some, todo_of_json_to_json. Qed.

(** X22: a reload discards unsaved changes.  When the page becomes visible
    again while a debounced save is still pending, [loadTodos] replaces the
    list in memory by the stored one, whatever was changed since the last
    save, and keeps [editingId]; the pending save then writes the stored
    list back.  The change the save was set for is in neither. *)
Theorem reload_discards_unsaved_changes w now now' id called l0 text :
  localStorage w !! STORAGE_KEY = Some text →
  text ≠ [] →
  JSON_parse text = Normal (todos_to_json l0) →
  JSON_stringify (todos_to_json l0) = Normal text →
  timeoutId (debouncedSave w) = Some id →
  pending (timers (debouncedSave w))
  = {[id := ((called + DEBOUNCE_DELAY)%nat, tt)]} →
  (world_clock w ≤ now ≤ now')%nat →
  (called + DEBOUNCE_DELAY ≤ now')%nat →
  ∃ w1 w2,
    world_step (Visible now false) w = Some w1
    ∧ world_step (SaveTimer now' id false) w1 = Some w2
    ∧ todos (world_app w1) = l0
    ∧ editingId (world_app w1) = editingId (world_app w)
    ∧ todos (world_app w2) = l0
    ∧ localStorage w2 = localStorage w
    ∧ pending (timers (debouncedSave w2)) = ∅.
Proof.
  intros Hstore Hne Hparse Hstr Hid Hpending [Hnow Hnow'] Hdue.
  assert (loadTodos (getItem false STORAGE_KEY (localStorage w))
          = Normal (todo_to_json <$> l0)) as Hload.
  { unfold getItem. rewrite Hstore. by apply loadTodos_array. }
  eexists _, _. split_and!.
  - unfold world_step. rewrite decide_True by done.
    by rewrite Hload, todos_of_json_to_json.
  - unfold world_step, timer_fires, saveTodos, StorageService_save, setItem.
    cbn [world_clock debouncedSave world_app localStorage todos].
    rewrite decide_True by done.
    rewrite Hpending, lookup_singleton_eq, decide_True by done.
    rewrite Hstr. done.
  - done.
  - done.
  - done.
  - cbn [localStorage]. by apply insert_id.
  - cbn [debouncedSave timers pending]. rewrite ?Hpending.
    apply delete_singleton_eq.
Qed.

End Persistence.

Lemma debounced_save_keeps_store_in_sync_witness :
  ∃ w,
    world_run (E:=ascii_engine) (S:=sample_stringifier) sample_history
      sample_stale = Some w
    ∧ ¬ in_sync (S:=sample_stringifier) sample_stale
    ∧ todos (world_app w) = [todo_milk]
    ∧ pending (timers (debouncedSave w)) = ∅
    ∧ (in_sync (S:=sample_stringifier) w ∨ untouched sample_stale w).
Proof.
  eexists. split; [by vm_compute|].
  split; [by vm_compute|]. split; [reflexivity|]. split; [reflexivity|].
  eapply (debounced_save_keeps_store_in_sync (E:=ascii_engine)
            (S:=sample_stringifier) sample_history sample_stale).
  - intros l. by eexists.
  - reflexivity.
  - reflexivity.
  - by vm_compute.
  - reflexivity.
Defined.


Lemma reload_discards_unsaved_changes_witness :
  ∃ w1 w2,
    world_step (E:=ascii_engine) (S:=sample_stringifier) (Visible 1100 false)
      sample_unsaved = Some w1
    ∧ world_step (E:=ascii_engine) (S:=sample_stringifier)
        (SaveTimer 1300 0 false) w1 = Some w2
    ∧ todos (world_app sample_unsaved) = [todo_milk]
    ∧ todos (world_app w2) = []
    ∧ localStorage w2 = {[STORAGE_KEY := js "[]"]}.
Proof.
  destruct (reload_discards_unsaved_changes (E:=ascii_engine)
              (S:=sample_stringifier) sample_unsaved 1100%nat 1300%nat 0%nat
              1000%nat [] (js "[]"))
    as (w1 & w2 & H1 & H2 & _ & _ & H3 & H4 & _);
    [reflexivity|discriminate|reflexivity|reflexivity|reflexivity|reflexivity
    |cbv [sample_unsaved world_clock]; lia|cbv [DEBOUNCE_DELAY]; lia|].
  exists w1, w2. by split_and!.
Defined.

(** ** When saveEdit and a repeated addTodo succeed *)

Section Acceptance.
Context `{E : Engine}.


(** X24: of two texts that are equal up to case after trimming, [addTodo]
    accepts only the first: once the first has been added, [addTodo] with
    the second leaves the state as it is; in particular submitting the same
    input twice adds it once. *)
Theorem second_addTodo_rejected value1 id1 now1 value2 id2 now2 app :
  successful (addTodo value1 id1 now1 app) = true →
  toLowerCase (trim value2) = toLowerCase (trim value1) →
  let app1 := (addTodo value1 id1 now1 app).1 in
  (addTodo value2 id2 now2 app1).1 = app1
  ∧ successful (addTodo value2 id2 now2 app1) = false
  ∧ length (todos app1) = S (length (todos app)).
Proof.
  intros Hs Heq app1.
  destruct (addTodo_cases value1 id1 now1 app)
    as [[Hf _]|(_ & _ & _ & Happ1)]; [congruence|].
  fold app1 in Happ1.
  destruct (addTodo_rejected value2 id2 now2 app1) as (msg & ty & Hty & Hr).
  { right. right. exists (Todo.mk id1 (trim value1) now1 None false).
    split; [|done]. rewrite Happ1. simpl. by left. }
  rewrite Hr. simpl. split; [done|]. split.
  - unfold successful. simpl. by destruct ty.
  - by rewrite Happ1.
Qed.

End Acceptance.


Lemma second_addTodo_rejected_witness :
  (addTodo (E:=ascii_engine) (js "buy MILK ") id_dog (js "t") app_milk).1
  = app_milk
  ∧ successful (addTodo (E:=ascii_engine) (js "buy MILK ") id_dog (js "t")
                  app_milk) = false
  ∧ length (todos app_milk) = 1%nat.
Proof.
  apply (second_addTodo_rejected (E:=ascii_engine) (js "Buy milk") id_milk
           (js "2023-11-14T22:13:20.000Z") (js "buy MILK ") id_dog (js "t")
           initial); reflexivity.
Defined.

(** ** The earlier TodoApp *)

Section LegacyApp.
Context `{E : Engine}.

(** X25: the earlier [deleteTodo] removes every item that carries the
    identifier, keeps the others in their order, and reports success in all
    cases, also when no item carried the identifier and the list is as it
    was. *)
Theorem legacy_deleteTodo_removes_all id todos :
  let r := Legacy.deleteTodo id todos in
  (id ∉ Legacy.id <$> r.1)
  ∧ r.1 `sublist_of` todos
  ∧ (∀ todo, todo ∈ todos → Legacy.id todo ≠ id → todo ∈ r.1)
  ∧ (id ∉ Legacy.id <$> todos → r.1 = todos)
  ∧ r.2 = [Legacy.SaveTodos; Legacy.RenderTodos;
           Legacy.ShowSuccess (js "Todo deleted successfully!")].
Proof.
  simpl. split_and!.
  - intros (todo & Hid & Hin)%list_elem_of_fmap.
    apply list_elem_of_filter in Hin as [Hne _]. by apply Hne.
  - apply sublist_filter.
  - intros todo Hin Hne. by apply list_elem_of_filter.
  - intros Hout. induction todos as [|todo todos IH]; [done|].
    rewrite fmap_cons in Hout. apply not_elem_of_cons in Hout as [Hne Hout].
    rewrite filter_cons_True by done. f_equal. by apply IH.
  - done.
Qed.

(** X26: the earlier [addTodo] puts an accepted item at the end of the list
    and sets no limit on the length of its text; it takes the clock reading
    as identifier, so two items added at the same clock reading share their
    identifier, and a [deleteTodo] of that identifier removes both. *)
Theorem legacy_addTodo_appends value1 value2 dateNow now1 now2 todos :
  trim value1 ≠ [] →
  (∀ todo, todo ∈ todos →
     toLowerCase (Legacy.text todo) ≠ toLowerCase (trim value1)) →
  let todos1 := (Legacy.addTodo value1 dateNow now1 todos).1 in
  todos1 = todos ++ [Legacy.mk dateNow (trim value1) now1]
  ∧ (trim value2 ≠ [] →
     (∀ todo, todo ∈ todos1 →
        toLowerCase (Legacy.text todo) ≠ toLowerCase (trim value2)) →
     let todos2 := (Legacy.addTodo value2 dateNow now2 todos1).1 in
     todos2 = todos ++ [Legacy.mk dateNow (trim value1) now1;
                        Legacy.mk dateNow (trim value2) now2]
     ∧ (Legacy.deleteTodo dateNow todos2).1
       = (Legacy.deleteTodo dateNow todos).1).
Proof.
  assert (∀ value d n l, trim value ≠ [] →
            (∀ todo, todo ∈ l →
               toLowerCase (Legacy.text todo) ≠ toLowerCase (trim value)) →
            (Legacy.addTodo value d n l).1
            = l ++ [Legacy.mk d (trim value) n]) as Hadd.
  { intros value d n l Hne Hnew. unfold Legacy.addTodo.
    destruct (trim value) as [|c s] eqn:Ht; [done|].
    assert (existsb (λ todo, bool_decide (toLowerCase (Legacy.text todo)
                                          = toLowerCase (c :: s))) l
            = false) as ->; [|done].
    apply existsb_false_Forall, list.Forall_forall. intros todo Hin.
    apply bool_decide_eq_false. by apply Hnew. }
  intros Hne1 Hnew1 todos1. subst todos1. rewrite (Hadd _ _ _ _ Hne1 Hnew1).
  split; [done|]. intros Hne2 Hnew2 todos2. subst todos2.
  rewrite (Hadd _ _ _ _ Hne2 Hnew2). rewrite <- app_assoc. split; [done|].
  simpl. rewrite filter_app. simpl.
  rewrite !filter_cons_False by (simpl; by intros H; apply H).
  by rewrite filter_nil, app_nil_r.
Qed.

End LegacyApp.

Lemma legacy_deleteTodo_removes_all_witness :
  (Legacy.deleteTodo 7 [Legacy.mk 7 (js "a") (js "t0");
                        Legacy.mk 8 (js "b") (js "t1");
                        Legacy.mk 7 (js "c") (js "t2")]).1
  = [Legacy.mk 8 (js "b") (js "t1")]
  ∧ (Legacy.deleteTodo 9 [Legacy.mk 8 (js "b") (js "t1")]).1
    = [Legacy.mk 8 (js "b") (js "t1")].
Proof.
  destruct (legacy_deleteTodo_removes_all 9 [Legacy.mk 8 (js "b") (js "t1")])
    as (_ & _ & _ & Hsame & _).
  split; [reflexivity|]. apply Hsame. decide_closed.
Defined.

Lemma legacy_addTodo_appends_witness :
  (Legacy.addTodo (E:=ascii_engine) (js " b ") 7 (js "t1")
     [Legacy.mk 5 (js "a") (js "t0")]).1
  = [Legacy.mk 5 (js "a") (js "t0"); Legacy.mk 7 (js "b") (js "t1")].
Proof.
  destruct (legacy_addTodo_appends (E:=ascii_engine) (js " b ") (js "c") 7
              (js "t1") (js "t2") [Legacy.mk 5 (js "a") (js "t0")])
    as [H _].
  - discriminate.
  - intros todo ->%list_elem_of_singleton. vm_compute. discriminate.
  - exact H.
Defined.

(** ** NotificationService *)

Lemma Forall_filter {A} (Q P : A → Prop) `{∀ x, Decision (P x)} l :
  Forall Q l → Forall Q (filter P l).
Proof.
  rewrite !list.Forall_forall. intros HQ x [_ Hx]%list_elem_of_filter. auto.
Qed.

Lemma StronglySorted_filter {A} (R : relation A) (P : A → Prop)
    `{∀ x, Decision (P x)} l :
  StronglySorted R l → StronglySorted R (filter P l).
Proof.
  induction 1 as [|x l Hl IH Hx]; [constructor|].
  destruct (decide (P x)).
  - rewrite filter_cons_True by done. constructor; [done|].
    by apply Forall_filter.
  - by rewrite filter_cons_False.
Qed.

Lemma notification_new_ok : notifications_ok NotificationService_new.
Proof.
  split; simpl.
  - constructor.
  - constructor.
  - constructor.
  - intros id timer. by rewrite lookup_empty.
  - by intros n ?%elem_of_nil.
Qed.

Lemma notification_remove_ok now n s :
  notifications_ok s → notifications_ok (NotificationService_remove now n s).
Proof.
  intros [Hnd Hsort Hcr Hids Haim]. split; simpl; try done.
  - intros id timer [[<- _]|[_ Hold]]%lookup_insert_Some; [lia|].
    specialize (Hids _ _ Hold). lia.
  - intros m Hm. destruct (Haim m Hm) as (id & due & cb & Hp & Ht).
    exists id, due, cb. split; [|done]. rewrite lookup_insert_ne; [done|].
    specialize (Hids _ _ Hp). lia.
Qed.

Lemma notification_step_ok ev s s' :
  notification_step ev s = Some s' → notifications_ok s → notifications_ok s'.
Proof.
  intros Hstep Hok. destruct ev as [now message type duration|n|now n|now id];
    simpl in Hstep.
  - injection Hstep as <-. destruct Hok as [Hnd Hsort Hcr Hids Haim].
    split; simpl.
    + apply list.NoDup_app. split_and!; [done| |apply NoDup_singleton].
      intros n Hn ->%list_elem_of_singleton.
      rewrite list.Forall_forall in Hcr. specialize (Hcr _ Hn). lia.
    + apply StronglySorted_app_2; [|done|by repeat constructor].
      intros n m Hn ->%list_elem_of_singleton.
      rewrite list.Forall_forall in Hcr. by apply Hcr.
    + rewrite length_app. simpl. apply Forall_app. split.
      * eapply list.Forall_impl; [done|]. simpl. lia.
      * constructor; [lia|constructor].
    + intros id timer [[<- _]|[_ Hold]]%lookup_insert_Some; [lia|].
      specialize (Hids _ _ Hold). lia.
    + intros n [Hn | ->%list_elem_of_singleton]%elem_of_app.
      * destruct (Haim n Hn) as (id & due & cb & Hp & Ht).
        exists id, due, cb. split; [|done]. rewrite lookup_insert_ne; [done|].
        specialize (Hids _ _ Hp). lia.
      * eexists _, _, _. split; [apply lookup_insert_eq|done].
  - injection Hstep as <-. by destruct Hok.
  - destruct (bool_decide (n ∈ container s)); [|done].
    injection Hstep as <-. by apply notification_remove_ok.
  - destruct (pending (notification_timers s) !! id) as [[due cb]|] eqn:Hp;
      [|done].
    destruct (decide (due ≤ now)%nat); [|done]. injection Hstep as <-.
    destruct Hok as [Hnd Hsort Hcr Hids Haim].
    destruct cb as [n|n].
    + split; simpl; try done.
      * intros id' timer [[<- _]|[_ [_ Hold]%lookup_delete_Some]]
          %lookup_insert_Some; [lia|].
        specialize (Hids _ _ Hold). lia.
      * intros m Hm. destruct (Haim m Hm) as (id' & due' & cb' & Hp' & Ht).
        destruct (decide (id' = id)) as [->|Hne].
        -- rewrite Hp in Hp'. injection Hp' as <- <-. simpl in Ht. subst m.
           eexists _, _, _. split; [apply lookup_insert_eq|done].
        -- exists id', due', cb'. split; [|done].
           specialize (Hids _ _ Hp').
           rewrite lookup_insert_ne by lia. by rewrite lookup_delete_ne.
    + assert (∀ m, m ∈ container s → m ≠ n →
                ∃ id' due' cb',
                  delete id (pending (notification_timers s)) !! id'
                  = Some (due', cb') ∧ timer_target cb' = m) as Haim'.
      { intros m Hm Hmn. destruct (Haim m Hm) as (id' & due' & cb' & Hp' & Ht).
        exists id', due', cb'. split; [|done].
        rewrite lookup_delete_ne; [done|]. intros ->.
        rewrite Hp in Hp'. injection Hp' as <- <-. by simpl in Ht. }
      unfold detach. simpl. case_bool_decide as Hin.
      * split; simpl.
        -- by apply NoDup_filter.
        -- by apply StronglySorted_filter.
        -- by apply Forall_filter.
        -- intros id' timer [_ Hold]%lookup_delete_Some. by eapply Hids.
        -- intros m [Hmn Hm]%list_elem_of_filter. by apply Haim'.
      * split; simpl; try done.
        -- intros id' timer [_ Hold]%lookup_delete_Some. by eapply Hids.
        -- intros m Hm. apply Haim'; [done|]. by intros ->.
Qed.

Lemma notification_run_ok events s s' :
  notification_run events s = Some s' →
  notifications_ok s → notifications_ok s'.
Proof.
  revert s. induction events as [|ev rest IH]; intros s; simpl.
  - by intros [= <-].
  - destruct (notification_step ev s) as [s1|] eqn:Hstep; [|done].
    intros Hrun Hok. apply (IH s1 Hrun). by eapply notification_step_ok.
Qed.

(** X27: notifications stack and expire.  After any history of the service,
    the container holds each notification at most once, in the order they
    were shown, and [show] puts the new one after them; every notification
    that is still attached has a pending timer aimed at it (its automatic
    removal or its detaching), so none stays for ever; a detaching timer
    removes its notification and no other; and when the notification is
    already detached (the close button was used before the automatic
    removal) the timer leaves the container as it is. *)
Theorem notifications_stack_and_expire events s :
  notification_run events NotificationService_new = Some s →
  NoDup (container s)
  ∧ StronglySorted lt (container s)
  ∧ (∀ now message type duration,
       container (NotificationService_show now message type duration s).2
       = container s ++ [length (created s)])
  ∧ (∀ n, n ∈ container s →
       ∃ id due callback,
         pending (notification_timers s) !! id = Some (due, callback)
         ∧ timer_target callback = n)
  ∧ (∀ now id due n,
       pending (notification_timers s) !! id = Some (due, Detach n) →
       (due ≤ now)%nat →
       ∃ s', notification_step (TimerRuns now id) s = Some s'
             ∧ container s' = filter (λ m, m ≠ n) (container s)
             ∧ (n ∉ container s → container s' = container s)).
Proof.
  intros Hrun.
  destruct (notification_run_ok _ _ _ Hrun notification_new_ok)
    as [Hnd Hsort Hcr Hids Haim].
  split_and!; try done.
  intros now id due n Hp Hdue. simpl. rewrite Hp.
  rewrite decide_True by done. eexists. split; [done|].
  unfold detach. simpl. case_bool_decide as Hin; simpl.
  - split; [done|]. by intros ?.
  - assert (filter (λ m, m ≠ n) (container s) = container s) as Hf.
    { clear -Hin. induction (container s) as [|m l IH]; [done|].
      apply not_elem_of_cons in Hin as [Hne Hin].
      rewrite filter_cons_True by done. f_equal. by apply IH. }
    by rewrite Hf.
Qed.

Lemma notifications_stack_and_expire_witness :
  let events :=
    [Shown 0 (js "Todo added successfully!") Success NOTIFICATION_DURATION;
     Shown 10 (js "This todo already exists") Warning NOTIFICATION_DURATION;
     CloseClicked 20 0; TimerRuns 320 2; TimerRuns 3000 0]%nat in
  ∃ s, notification_run events NotificationService_new = Some s
       ∧ container s = [1%nat]
       ∧ NoDup (container s)
       ∧ ∃ s', notification_step (TimerRuns 3300 3) s = Some s'
               ∧ container s' = container s.
Proof.
  intros events.
  destruct (notification_run events NotificationService_new) as [s|] eqn:Hrun;
    [|by vm_compute in Hrun].
  exists s.
  assert (container s = [1%nat]) as Hc.
  { vm_compute in Hrun. by injection Hrun as <-. }
  destruct (notifications_stack_and_expire events s Hrun)
    as (Hnd & _ & _ & _ & Hdetach).
  split_and!; [done|done|done|].
  destruct (Hdetach 3300%nat 3%nat 3300%nat 0%nat) as (s' & Hs' & _ & Hsame).
  - vm_compute in Hrun. by injection Hrun as <-.
  - done.
  - exists s'. split; [done|]. apply Hsame. rewrite Hc.
    by intros ?%list_elem_of_singleton.
Defined.

(** ** The earlier TodoApp: loading and notifications *)

Section LegacyLoad.
Context `{E : Engine}.

(** X28: the earlier [loadTodos] and the present one agree whenever the
    earlier one yields an array.  They differ in two cases only: when the
    stored text parses to a value that is not an array the earlier one keeps
    that value as the list while the present one takes the empty list, and
    when reading the store throws the earlier one throws while the present
    one takes the empty list. *)
Theorem legacy_loadTodos_agrees_on_arrays getItem :
  (∀ items,
     Legacy.loadTodos getItem (JArray []) = Normal (JArray items) →
     loadTodos getItem = Normal items)
  ∧ (∀ v,
       Legacy.loadTodos getItem (JArray []) = Normal v →
       isArray v = false →
       loadTodos getItem = Normal []
       ∧ ∃ text, getItem = Normal (Some text) ∧ JSON_parse text = Normal v)
  ∧ (∀ e,
       Legacy.loadTodos getItem (JArray []) = Throw e →
       getItem = Throw e ∧ loadTodos getItem = Normal []).
Proof.
  unfold Legacy.loadTodos, loadTodos, StorageService.load.
  destruct getItem as [[[|c s]|]|e0]; cbn.
  - split_and!; [by intros items [= <-] | by intros v [= <-] | done].
  - destruct (JSON_parse (c :: s)) as [v0|e1] eqn:Hp; cbn.
    + split_and!.
      * by intros items [= ->].
      * intros v [= ->] Hv. split; [by destruct v|]. by exists (c :: s).
      * done.
    + split_and!; [by intros items [= <-] | by intros v [= <-] | done].
  - split_and!; [by intros items [= <-] | by intros v [= <-] | done].
  - split_and!; [done | done | by intros e [= ->]].
Qed.

End LegacyLoad.

Lemma legacy_loadTodos_agrees_on_arrays_witness :
  Legacy.loadTodos (E:=ascii_engine)
    (Normal (Some (dquote :: js "not-an-array" ++ [dquote]))) (JArray [])
  = Normal (JString (js "not-an-array"))
  ∧ loadTodos (E:=ascii_engine)
      (Normal (Some (dquote :: js "not-an-array" ++ [dquote])))
    = Normal [].
Proof.
  split; [reflexivity|].
  destruct (legacy_loadTodos_agrees_on_arrays (E:=ascii_engine)
              (Normal (Some (dquote :: js "not-an-array" ++ [dquote]))))
    as (_ & Hvalue & _).
  apply (Hvalue (JString (js "not-an-array"))); reflexivity.
Defined.

Lemma page_initial_ok : Legacy.page_ok Legacy.page_initial.
Proof.
  split; cbn.
  - by left.
  - by intros n ?%elem_of_nil.
  - by intros id timer ?%lookup_empty_Some.
Qed.

Lemma showNotification_latest now message type p :
  Legacy.page_ok p →
  Legacy.notifications (Legacy.showNotification now message type p)
  = [length (Legacy.made p)].
Proof.
  intros [Hlatest _ _]. unfold Legacy.showNotification. cbn.
  by destruct Hlatest as [-> | (n & -> & _)].
Qed.

Lemma showNotification_ok now message type p :
  Legacy.page_ok p →
  Legacy.page_ok (Legacy.showNotification now message type p).
Proof.
  intros Hok. pose proof (showNotification_latest now message type p Hok) as Hl.
  destruct Hok as [_ _ Hids]. split.
  - right. exists (length (Legacy.made p)). split; [done|].
    unfold Legacy.showNotification. cbn. rewrite length_app. cbn. lia.
  - intros n. rewrite Hl. intros ->%list_elem_of_singleton.
    exists (nextId (Legacy.page_timers p)), (now + 3000)%nat.
    unfold Legacy.showNotification. cbn. by rewrite lookup_insert_eq.
  - intros id timer. unfold Legacy.showNotification. cbn.
    intros [[<- _] | [_ Hin]]%lookup_insert_Some; [lia|].
    apply Hids in Hin. lia.
Qed.

Lemma page_step_ok ev p p' :
  Legacy.page_step ev p = Some p' → Legacy.page_ok p → Legacy.page_ok p'.
Proof.
  destruct ev as [now message type | now id]; cbn.
  - intros [= <-]. apply showNotification_ok.
  - destruct (pending (Legacy.page_timers p) !! id) as [[due n]|] eqn:Hid;
      [|done].
    case_decide; [|done]. intros [= <-] [Hlatest Htimer Hids].
    case_bool_decide as Hn.
    + assert (Legacy.notifications p = [n]) as ->.
      { destruct Hlatest as [Hl | (m & Hl & _)]; rewrite Hl in Hn.
        - by apply elem_of_nil in Hn.
        - by apply list_elem_of_singleton in Hn as ->. }
      rewrite filter_cons_False, filter_nil by (intros ?; done).
      split; cbn.
      * by left.
      * by intros m ?%elem_of_nil.
      * intros id' timer [_ Hin]%lookup_delete_Some. by apply Hids in Hin.
    + split; cbn.
      * done.
      * intros m Hm. destruct (Htimer m Hm) as (id' & due' & Hid').
        exists id', due'. apply lookup_delete_Some. split; [|done].
        intros ->. rewrite Hid in Hid'. by simplify_eq.
      * intros id' timer [_ Hin]%lookup_delete_Some. by apply Hids in Hin.
Qed.

Lemma page_run_ok events p p' :
  Legacy.page_run events p = Some p' → Legacy.page_ok p → Legacy.page_ok p'.
Proof.
  revert p. induction events as [|ev events IH]; intros p; cbn.
  - by intros [= <-].
  - destruct (Legacy.page_step ev p) as [p1|] eqn:Hstep; [|done].
    intros Hrun Hok. eapply IH; [done|]. by eapply page_step_ok.
Qed.

(** X29: the earlier [showNotification] replaces instead of stacking.  After
    any history of notifications and timer runs at most one notification is
    attached, and it is the one made last; [showNotification] leaves exactly
    the new one attached; the attached one has a pending timer set for it,
    so it does not stay for ever; and a timer that runs detaches the
    notification it was set for if that is the attached one, and otherwise
    (a timer of a notification already replaced) leaves the attached one
    where it is. *)
Theorem legacy_one_notification_at_a_time events p :
  Legacy.page_run events Legacy.page_initial = Some p →
  (length (Legacy.notifications p) ≤ 1)%nat
  ∧ (∀ now message type,
       Legacy.notifications (Legacy.showNotification now message type p)
       = [length (Legacy.made p)])
  ∧ (∀ n, n ∈ Legacy.notifications p →
       S n = length (Legacy.made p)
       ∧ ∃ id due, pending (Legacy.page_timers p) !! id = Some (due, n))
  ∧ (∀ now id due n,
       pending (Legacy.page_timers p) !! id = Some (due, n) →
       (due ≤ now)%nat →
       ∃ p', Legacy.page_step (Legacy.TimerRuns now id) p = Some p'
             ∧ Legacy.notifications p'
               = (if bool_decide (Legacy.notifications p = [n]) then []
                  else Legacy.notifications p)).
Proof.
  intros Hrun. pose proof (page_run_ok _ _ _ Hrun page_initial_ok) as Hok.
  split_and!.
  - destruct Hok as [[-> | (n & -> & _)] _ _]; cbn; lia.
  - intros now message type. by apply showNotification_latest.
  - intros n Hn. split; [|by apply Hok].
    destruct Hok as [[Hl | (m & Hl & Hm)] _ _]; rewrite Hl in Hn.
    + by apply elem_of_nil in Hn.
    + by apply list_elem_of_singleton in Hn as ->.
  - intros now id due n Hid Hdue. cbn. rewrite Hid.
    rewrite decide_True by done. eexists. split; [done|].
    destruct Hok as [Hlatest _ _].
    case_bool_decide as Hn; case_bool_decide as Hl; cbn.
    + rewrite Hl. by rewrite filter_cons_False, filter_nil by (intros ?; done).
    + destruct Hlatest as [Hl' | (m & Hl' & _)]; rewrite Hl' in Hn.
      * by apply elem_of_nil in Hn.
      * apply list_elem_of_singleton in Hn as ->. done.
    + rewrite Hl in Hn. destruct Hn. by apply list_elem_of_singleton.
    + done.
Qed.

Lemma legacy_one_notification_at_a_time_witness :
  Legacy.notifications
    (Legacy.showNotification 50 (js "second") (js "success")
       (Legacy.showNotification 0 (js "first") (js "error")
          Legacy.page_initial))
  = [1%nat].
Proof.
  destruct (legacy_one_notification_at_a_time
              [Legacy.Notified 0 (js "first") (js "error")]
              (Legacy.showNotification 0 (js "first") (js "error")
                 Legacy.page_initial))
    as (_ & Hshow & _); [reflexivity|].
  exact (Hshow 50%nat (js "second") (js "success")).
Defined.
